(** * Apparent-horizon finder: the right-hand side [horizon_RHS] and the
      shooting pipeline built on it (notebooks/02-horizon-finding.ipynb).

    Arithmetic is exact real arithmetic: floating-point rounding is not
    modelled.  A division whose divisor is zero has no real value; numpy
    yields inf or nan there, and the model yields
    [Err NumericalDomainError].  The constant [numpy.pi] is the double it
    is, [np_pi], which lies below pi: no angle the program computes from it
    is a pole of the tangent, and [numpy.pi/2] in particular has a finite
    tangent.  The failed [assert] on the singularity locations is
    [Err AssertionError]. *)

From Stdlib Require Import Reals Lra Lia List Permutation.
Import ListNotations.
Open Scope R_scope.

(** ** Fallible computations *)

Inductive error : Type :=
| AssertionError
| NumericalDomainError
| IndexError
| DivergenceError
| InvalidInput
| NonConvergenceError (last_iterate last_residual : R).

Inductive result (A : Type) : Type :=
| Ok (a : A)
| Err (e : error).

Arguments Ok {A} a.
Arguments Err {A} e.

Definition bind {A B : Type} (m : result A) (k : A -> result B) : result B :=
  match m with
  | Ok a => k a
  | Err e => Err e
  end.

Notation "x <- m ;; k" := (bind m (fun x => k))
  (at level 61, m at next level, right associativity).

(** [x / y] of the source. *)
Definition divide (x y : R) : result R :=
  if Req_dec_T y 0 then Err NumericalDomainError else Ok (x / y).

(** [numpy.pi]: the double nearest to pi, [0x400921FB54442D18], that is
    [884279719003555 / 2^48]. *)
Definition np_pi : R := 884279719003555 / 281474976710656.

(** [numpy.tan]: the tangent.  At a pole of the tangent, which no
    floating-point angle is, there is no real value. *)
Definition np_tan (theta : R) : result R :=
  if Req_dec_T (cos theta) 0 then Err NumericalDomainError else Ok (tan theta).

(** ** Data *)

(** [H = [h, dh/dtheta]]. *)
Definition StateVector : Type := (R * R)%type.

(** The three accumulators [psi], [dpsi_dr], [dpsi_dtheta] of [horizon_RHS]. *)
Record ConformalFactorSample : Type := mkSample {
  psi : R;
  dpsi_dr : R;
  dpsi_dtheta : R
}.

(** [psi = 1.0; dpsi_dr = 0.0; dpsi_dtheta = 0.0]. *)
Definition flat_background : ConformalFactorSample := mkSample 1.0 0.0 0.0.

(** ** The loop over the singularities (the [for z in z_singularities] of
       [horizon_RHS]) *)

(** [numpy.sqrt((h*numpy.sin(theta))**2 + (h*numpy.cos(theta) - z)**2)]. *)
Definition distance (h theta z : R) : R :=
  sqrt ((h * sin theta) ^ 2 + (h * cos theta - z) ^ 2).

(** [numpy.sqrt((h*numpy.sin(theta))**2 + (h*numpy.cos(theta) + z)**2)]. *)
Definition distance_mirror (h theta z : R) : R :=
  sqrt ((h * sin theta) ^ 2 + (h * cos theta + z) ^ 2).

(** The three updates that every source makes.  [0.5**h*z*...] is Python's
    [(0.5**h)*z*...]: the power binds tighter than the product. *)
Definition direct_contribution (h theta z : R) (s : ConformalFactorSample)
  : result ConformalFactorSample :=
  let d := distance h theta z in
  a <- divide 0.5 d ;;
  b <- divide (0.5 * (h - z * cos theta)) (d ^ 3) ;;
  c <- divide (Rpower 0.5 h * z * sin theta) (d ^ 3) ;;
  Ok (mkSample (psi s + a) (dpsi_dr s - b) (dpsi_dtheta s - c)).

(** The three updates under [if z > 0.0] ("Apply reflection symmetry"). *)
Definition mirror_contribution (h theta z : R) (s : ConformalFactorSample)
  : result ConformalFactorSample :=
  let d := distance_mirror h theta z in
  a <- divide 0.5 d ;;
  b <- divide (0.5 * (h + z * cos theta)) (d ^ 3) ;;
  c <- divide (Rpower 0.5 h * z * sin theta) (d ^ 3) ;;
  Ok (mkSample (psi s + a) (dpsi_dr s - b) (dpsi_dtheta s + c)).

(** One pass of the loop body. *)
Definition source_contribution (h theta z : R) (s : ConformalFactorSample)
  : result ConformalFactorSample :=
  s1 <- direct_contribution h theta z s ;;
  if Rgt_dec z 0.0 then mirror_contribution h theta z s1 else Ok s1.

Fixpoint accumulate (h theta : R) (z_singularities : list R)
    (s : ConformalFactorSample) : result ConformalFactorSample :=
  match z_singularities with
  | [] => Ok s
  | z :: rest =>
      s' <- source_contribution h theta z s ;;
      accumulate h theta rest s'
  end.

(** The field sample at [(h, theta)]: the loop run from the flat background. *)
Definition singularity_field (h theta : R) (z_singularities : list R)
  : result ConformalFactorSample :=
  accumulate h theta z_singularities flat_background.

(** ** [horizon_RHS] *)

(** [numpy.all(numpy.array(z_singularities) >= 0.0)]. *)
Definition all_nonneg (z_singularities : list R) : bool :=
  forallb (fun z => if Rge_dec z 0.0 then true else false) z_singularities.

(** [(abs(theta) < 1e-16) or (abs(theta - numpy.pi) < 1e-16)]. *)
Definition on_axis (theta : R) : bool :=
  if Rlt_dec (Rabs theta) 1e-16 then true
  else if Rlt_dec (Rabs (theta - np_pi)) 1e-16 then true
  else false.

(** The [if]/[else] that sets [cot_theta_dh_C2]. *)
Definition cot_theta_dh_C2 (theta dh C2 : R) : result R :=
  if on_axis theta then Ok 0.0
  else t <- np_tan theta ;; divide dh (t * C2).

(** [C2 = 1.0 / (1.0 + (dh / h)**2)]. *)
Definition normal_factor (h dh : R) : result R :=
  q <- divide dh h ;;
  divide 1.0 (1.0 + q ^ 2).

Definition horizon_RHS (H : StateVector) (theta : R) (z_singularities : list R)
  : result StateVector :=
  if all_nonneg z_singularities then
    let h := fst H in
    let dh := snd H in
    s <- singularity_field h theta z_singularities ;;
    C2 <- normal_factor h dh ;;
    cot <- cot_theta_dh_C2 theta dh C2 ;;
    a <- divide (4.0 * h ^ 2) (psi s * C2) ;;
    b <- divide (dpsi_dtheta s * dh) (h ^ 2) ;;
    c <- divide (3.0 * dh ^ 2) h ;;
    Ok (dh, 2.0 * h - cot + a * (dpsi_dr s - b) + c)
  else Err AssertionError.

(** ** The steppers *)

Definition vadd (a b : StateVector) : StateVector :=
  (fst a + fst b, snd a + snd b).

Definition vscale (c : R) (a : StateVector) : StateVector :=
  (c * fst a, c * snd a).

(** The signature shared by [euler_step] and [rk2_step]. *)
Definition stepper : Type :=
  StateVector -> R -> R -> list R -> result StateVector.

(** Modelled from the spec: the body of [euler_step], which the notebook
    declares and calls but leaves to the reader.  Euler's method as the
    notebook's text and the spec give it:
    [H_{i+1} = H_i + dtheta * F(H_i, theta_i)]. *)
Definition euler_step : stepper := fun Hi theta_i dtheta z_singularity =>
  Fi <- horizon_RHS Hi theta_i z_singularity ;;
  Ok (vadd Hi (vscale dtheta Fi)).

(** Modelled from the spec: the body of [rk2_step], likewise left to the
    reader.  Predictor [H_p = H_i + dtheta * F(H_i, theta_i)], corrector
    [H_{i+1} = 0.5 * (H_i + H_p + dtheta * F(H_p, theta_{i+1}))]. *)
Definition rk2_step : stepper := fun Hi theta_i dtheta z_singularity =>
  Fi <- horizon_RHS Hi theta_i z_singularity ;;
  let Hp := vadd Hi (vscale dtheta Fi) in
  Fp <- horizon_RHS Hp (theta_i + dtheta) z_singularity ;;
  Ok (vscale 0.5 (vadd (vadd Hi Hp) (vscale dtheta Fp))).

(** Modelled from the spec: the trapezoidal form that the notebook's text
    and the spec say the corrector rearranges,
    [H_{i+1} = H_i + dtheta/2 * (F(H_i, theta_i) + F(H_p, theta_{i+1}))]. *)
Definition rk2_trapezoid : stepper := fun Hi theta_i dtheta z_singularity =>
  Fi <- horizon_RHS Hi theta_i z_singularity ;;
  let Hp := vadd Hi (vscale dtheta Fi) in
  Fp <- horizon_RHS Hp (theta_i + dtheta) z_singularity ;;
  Ok (vadd Hi (vscale (dtheta / 2) (vadd Fi Fp))).

(** ** The integration driver *)

(** [numpy.linspace(start, stop, num)]. *)
Definition linspace (start stop : R) (num : nat) : list R :=
  map (fun i => start + INR i * ((stop - start) / INR (num - 1))) (seq 0 num).

(** [for i in range(...): H[:, i+1] = step(H[:, i], theta[i], dtheta, z)]:
    the columns written by the loop, in order. *)
Fixpoint march (step : stepper) (Hi : StateVector) (thetas : list R)
    (dtheta : R) (z_singularity : list R) : result (list StateVector) :=
  match thetas with
  | [] => Ok []
  | theta_i :: rest =>
      Hnext <- step Hi theta_i dtheta z_singularity ;;
      tl <- march step Hnext rest dtheta z_singularity ;;
      Ok (Hnext :: tl)
  end.

(** The driver cell, with the initial radius, the grid size and the stepper
    as parameters (the notebook runs it with [0.5], [Ntheta = 100] and each
    stepper in turn): [theta = linspace(0, numpy.pi/2, Ntheta)],
    [dtheta = theta[1] - theta[0]], [H[:, 0] = [h0, 0.0]], then the loop. *)
Definition integrate (step : stepper) (h0 : R) (Ntheta : nat)
    (z_singularity : list R) : result (list StateVector) :=
  let theta := linspace 0.0 (np_pi / 2.0) Ntheta in
  match nth_error theta 1, nth_error theta 0 with
  | Some theta1, Some theta0 =>
      let dtheta := theta1 - theta0 in
      let H0 : StateVector := (h0, 0.0) in
      tl <- march step H0 (firstn (Ntheta - 1) theta) dtheta z_singularity ;;
      Ok (H0 :: tl)
  | _, _ => Err IndexError
  end.

(** Modelled from the spec: the body of [residual], left to the reader.
    It integrates from [h0] and returns the [dh/dtheta] component of the last
    trajectory entry. *)
Definition residual (step : stepper) (Ntheta : nat) (h0 : R)
    (z_singularities : list R) : result R :=
  trajectory <- integrate step h0 Ntheta z_singularities ;;
  Ok (snd (last trajectory (h0, 0.0))).

(** ** The secant solver *)

(** The default of [secant]'s [tolerance] parameter. *)
Definition default_tolerance : R := 1e-10.

(** Two consecutive iterates with their residuals. *)
Record SecantState : Type := mkSecant {
  x_prev : R;
  x_cur : R;
  r_prev : R;
  r_cur : R
}.

(** Modelled from the spec: one secant update,
    [x_{n+1} = x_n - R(x_n) (x_n - x_{n-1}) / (R(x_n) - R(x_{n-1}))], with
    the spec's failure modes: a zero denominator is a [DivergenceError], a
    candidate that is not positive an [InvalidInput], and an error of the
    residual function propagates. *)
Definition secant_update (R_fn : R -> result R) (st : SecantState)
  : result SecantState :=
  if Req_dec_T (r_cur st - r_prev st) 0 then Err DivergenceError
  else
    let x_next :=
      x_cur st - r_cur st * (x_cur st - x_prev st) / (r_cur st - r_prev st) in
    if Rle_dec x_next 0 then Err InvalidInput
    else
      r_next <- R_fn x_next ;;
      Ok (mkSecant (x_cur st) x_next (r_cur st) r_next).

(** [|R(x_n)| < tolerance]. *)
Definition converged (tolerance : R) (st : SecantState) : bool :=
  if Rlt_dec (Rabs (r_cur st)) tolerance then true else false.

(** Modelled from the spec: the iteration of [secant].  It stops with the
    current iterate once the tolerance is met, and with a
    [NonConvergenceError] carrying the last iterate and residual once
    [budget] updates have been spent without meeting it. *)
Fixpoint secant_loop (R_fn : R -> result R) (tolerance : R) (budget : nat)
    (st : SecantState) : result R :=
  if converged tolerance st then Ok (x_cur st)
  else
    match budget with
    | O => Err (NonConvergenceError (x_cur st) (r_cur st))
    | S budget' =>
        st' <- secant_update R_fn st ;;
        secant_loop R_fn tolerance budget' st'
    end.

(** The two seeds with their residuals. *)
Definition secant_start (R_fn : R -> result R) (x0 x1 : R)
  : result SecantState :=
  r0 <- R_fn x0 ;;
  r1 <- R_fn x1 ;;
  Ok (mkSecant x0 x1 r0 r1).

(** Modelled from the spec: [secant], whose body the notebook leaves to the
    reader.  The notebook declares [secant(R, x0, x1, args, tolerance=1e-10)];
    [R_fn] is [R] with [args] fed through, and [maxIterations] is the bound of
    the spec's contract. *)
Definition secant (R_fn : R -> result R) (x0 x1 tolerance : R)
    (maxIterations : nat) : result R :=
  st <- secant_start R_fn x0 x1 ;;
  secant_loop R_fn tolerance maxIterations st.

(** [secant] called without a tolerance. *)
Definition secant_default (R_fn : R -> result R) (x0 x1 : R)
    (maxIterations : nat) : result R :=
  secant R_fn x0 x1 default_tolerance maxIterations.

(** The state after [n] updates, whether or not the tolerance was met on
    the way. *)
Fixpoint secant_iterates (R_fn : R -> result R) (n : nat) (st : SecantState)
  : result SecantState :=
  match n with
  | O => Ok st
  | S n' =>
      st' <- secant_update R_fn st ;;
      secant_iterates R_fn n' st'
  end.

(** ** Predicates used by the statements *)

(** No source, and no mirror image of a source off the origin, lies at the
    query point. *)
Definition not_coincident (h theta : R) (z_singularities : list R) : Prop :=
  forall z, In z z_singularities ->
    distance h theta z <> 0 /\ (z > 0 -> distance_mirror h theta z <> 0).

(** Every entry is non-negative. *)
Definition valid_singularities (z_singularities : list R) : Prop :=
  forall z, In z z_singularities -> z >= 0.

(** The cotangent term has a value at [theta]: the guard holds, or the
    tangent exists and is not zero. *)
Definition regular_angle (theta : R) : Prop :=
  on_axis theta = true \/ (sin theta <> 0 /\ cos theta <> 0).

(** [H[:, 0] = [0.5, 0.0]], the Schwarzschild initial state of the driver. *)
Definition schwarzschild_state : StateVector := (0.5, 0.0).

(** [theta[i]] and [dtheta] of the driver for a grid of [Ntheta] angles. *)
Definition grid_angle (Ntheta i : nat) : R :=
  0.0 + INR i * ((np_pi / 2.0 - 0.0) / INR (Ntheta - 1)).

Definition grid_dtheta (Ntheta : nat) : R :=
  grid_angle Ntheta 1 - grid_angle Ntheta 0.

(** The current residual of a secant state is the residual of its current
    iterate. *)
Definition consistent (R_fn : R -> result R) (st : SecantState) : Prop :=
  R_fn (x_cur st) = Ok (r_cur st).

(** ** Closed forms of the loop

    What one pass of the loop body adds to [psi] and takes from [dpsi_dr]
    and [dpsi_dtheta]: the direct update and, under [z > 0.0], the mirror
    update. *)

Definition psi_gain (h theta z : R) : R :=
  0.5 / distance h theta z
  + (if Rgt_dec z 0.0 then 0.5 / distance_mirror h theta z else 0).

Definition dpsi_dr_loss (h theta z : R) : R :=
  0.5 * (h - z * cos theta) / distance h theta z ^ 3
  + (if Rgt_dec z 0.0
     then 0.5 * (h + z * cos theta) / distance_mirror h theta z ^ 3
     else 0).

Definition dpsi_dtheta_loss (h theta z : R) : R :=
  Rpower 0.5 h * z * sin theta / distance h theta z ^ 3
  - (if Rgt_dec z 0.0
     then Rpower 0.5 h * z * sin theta / distance_mirror h theta z ^ 3
     else 0).

(** The sum of [f] over the sources. *)
Definition sum_over (f : R -> R) (z_singularities : list R) : R :=
  fold_right (fun z acc => f z + acc) 0 z_singularities.

(** [psi] after the loop, as a function of the query point. *)
Definition psi_closed (h theta : R) (z_singularities : list R) : R :=
  1.0 + sum_over (psi_gain h theta) z_singularities.

(** The source [z] (and its mirror image when [z > 0]) is not at the query
    point. *)
Definition source_defined (h theta z : R) : Prop :=
  distance h theta z <> 0 /\ (z > 0 -> distance_mirror h theta z <> 0).

(** ** Basic facts about fallible computations *)

Lemma divide_ok (x y : R) : y <> 0 -> divide x y = Ok (x / y).
Proof.
  intros Hy. unfold divide. destruct (Req_dec_T y 0) as [E | _]; [contradiction | reflexivity].
Qed.

Lemma divide_zero (x : R) : divide x 0 = Err NumericalDomainError.
Proof.
  unfold divide. destruct (Req_dec_T 0 0) as [_ | N]; [reflexivity | now destruct N].
Qed.

Lemma divide_inv (x y v : R) : divide x y = Ok v -> y <> 0 /\ v = x / y.
Proof.
  unfold divide. destruct (Req_dec_T y 0) as [E | N]; intros H.
  - discriminate H.
  - injection H as <-. split; [exact N | reflexivity].
Qed.

Lemma bind_ok_inv {A B : Type} (m : result A) (k : A -> result B) (b : B) :
  bind m k = Ok b -> exists a, m = Ok a /\ k a = Ok b.
Proof.
  destruct m as [a | e]; simpl; intros H; [exists a; split; auto | discriminate H].
Qed.

(** A quotient of a non-zero numerator is not zero, whatever the divisor. *)
Lemma divide_nonzero (x y c : R) : x <> 0 -> divide x y = Ok c -> c <> 0.
Proof.
  intros Hx H. apply divide_inv in H as [Hy ->]. unfold Rdiv.
  apply Rmult_integral_contrapositive_currified;
    [exact Hx | apply Rinv_neq_0_compat; exact Hy].
Qed.

Lemma sample_eq (p p' r r' t t' : R) :
  p = p' -> r = r' -> t = t' -> mkSample p r t = mkSample p' r' t'.
Proof. intros -> -> ->. reflexivity. Qed.

(** ** Distances *)

Lemma distance_nonneg (h theta z : R) : 0 <= distance h theta z.
Proof. apply sqrt_pos. Qed.

Lemma distance_mirror_nonneg (h theta z : R) : 0 <= distance_mirror h theta z.
Proof. apply sqrt_pos. Qed.

Lemma distance_mirror_direct (h theta z : R) :
  distance_mirror h theta z = distance h theta (- z).
Proof.
  unfold distance_mirror, distance. f_equal. ring.
Qed.

Lemma cube_neq_0 (d : R) : d <> 0 -> d ^ 3 <> 0.
Proof. intros Hd. apply pow_nonzero. exact Hd. Qed.

(** The radicand, with [sin^2 + cos^2 = 1] used. *)
Lemma radicand_direct (h theta z : R) :
  (h * sin theta) ^ 2 + (h * cos theta - z) ^ 2
  = h ^ 2 - 2 * h * z * cos theta + z ^ 2.
Proof.
  pose proof (sin2_cos2 theta) as E. unfold Rsqr in E.
  replace ((h * sin theta) ^ 2 + (h * cos theta - z) ^ 2)
    with (h ^ 2 * (sin theta * sin theta + cos theta * cos theta)
          - 2 * h * z * cos theta + z ^ 2) by ring.
  rewrite E. ring.
Qed.

(** ** The per-source updates in closed form *)

Lemma direct_contribution_ok (h theta z : R) (s : ConformalFactorSample) :
  distance h theta z <> 0 ->
  direct_contribution h theta z s =
  Ok (mkSample
        (psi s + 0.5 / distance h theta z)
        (dpsi_dr s - 0.5 * (h - z * cos theta) / distance h theta z ^ 3)
        (dpsi_dtheta s - Rpower 0.5 h * z * sin theta / distance h theta z ^ 3)).
Proof.
  intros Hd. unfold direct_contribution.
  rewrite (divide_ok _ _ Hd). simpl.
  rewrite !(divide_ok _ _ (cube_neq_0 _ Hd)). reflexivity.
Qed.

Lemma mirror_contribution_ok (h theta z : R) (s : ConformalFactorSample) :
  distance_mirror h theta z <> 0 ->
  mirror_contribution h theta z s =
  Ok (mkSample
        (psi s + 0.5 / distance_mirror h theta z)
        (dpsi_dr s - 0.5 * (h + z * cos theta) / distance_mirror h theta z ^ 3)
        (dpsi_dtheta s
         + Rpower 0.5 h * z * sin theta / distance_mirror h theta z ^ 3)).
Proof.
  intros Hd. unfold mirror_contribution.
  rewrite (divide_ok _ _ Hd). simpl.
  rewrite !(divide_ok _ _ (cube_neq_0 _ Hd)). reflexivity.
Qed.

Lemma direct_contribution_coincident (h theta z : R) (s : ConformalFactorSample) :
  distance h theta z = 0 ->
  direct_contribution h theta z s = Err NumericalDomainError.
Proof.
  intros Hd. unfold direct_contribution. rewrite Hd, divide_zero. reflexivity.
Qed.

Lemma mirror_contribution_coincident (h theta z : R) (s : ConformalFactorSample) :
  distance_mirror h theta z = 0 ->
  mirror_contribution h theta z s = Err NumericalDomainError.
Proof.
  intros Hd. unfold mirror_contribution. rewrite Hd, divide_zero. reflexivity.
Qed.

Lemma mirror_is_direct_at_opposite (h theta z : R) (s : ConformalFactorSample) :
  mirror_contribution h theta z s = direct_contribution h theta (- z) s.
Proof.
  destruct (Req_dec_T (distance_mirror h theta z) 0) as [E | N].
  - rewrite mirror_contribution_coincident by exact E.
    rewrite direct_contribution_coincident; [reflexivity |].
    rewrite <- distance_mirror_direct. exact E.
  - rewrite mirror_contribution_ok by exact N.
    assert (N' : distance h theta (- z) <> 0)
      by (rewrite <- distance_mirror_direct; exact N).
    rewrite direct_contribution_ok by exact N'.
    rewrite <- !distance_mirror_direct.
    f_equal. apply sample_eq; field; exact N.
Qed.

Lemma source_contribution_off_origin (h theta z : R) (s : ConformalFactorSample) :
  z > 0 ->
  source_contribution h theta z s =
  (s1 <- direct_contribution h theta z s ;; mirror_contribution h theta z s1).
Proof.
  intros Hz. unfold source_contribution.
  destruct (direct_contribution h theta z s) as [s1 | e]; simpl; [| reflexivity].
  destruct (Rgt_dec z 0.0) as [_ | N]; [reflexivity | exfalso; lra].
Qed.

Lemma source_contribution_not_positive (h theta z : R) (s : ConformalFactorSample) :
  z <= 0 ->
  source_contribution h theta z s = direct_contribution h theta z s.
Proof.
  intros Hz. unfold source_contribution.
  destruct (direct_contribution h theta z s) as [s1 | e]; simpl; [| reflexivity].
  destruct (Rgt_dec z 0.0) as [P | _]; [exfalso; lra | reflexivity].
Qed.

Lemma direct_contribution_inv (h theta z : R) (s s1 : ConformalFactorSample) :
  direct_contribution h theta z s = Ok s1 ->
  distance h theta z <> 0 /\
  s1 = mkSample
         (psi s + 0.5 / distance h theta z)
         (dpsi_dr s - 0.5 * (h - z * cos theta) / distance h theta z ^ 3)
         (dpsi_dtheta s - Rpower 0.5 h * z * sin theta / distance h theta z ^ 3).
Proof.
  intros H. destruct (Req_dec_T (distance h theta z) 0) as [E | N].
  - rewrite direct_contribution_coincident in H by exact E. discriminate H.
  - rewrite direct_contribution_ok in H by exact N. injection H as <-. auto.
Qed.

Lemma mirror_contribution_inv (h theta z : R) (s s1 : ConformalFactorSample) :
  mirror_contribution h theta z s = Ok s1 ->
  distance_mirror h theta z <> 0 /\
  s1 = mkSample
         (psi s + 0.5 / distance_mirror h theta z)
         (dpsi_dr s - 0.5 * (h + z * cos theta) / distance_mirror h theta z ^ 3)
         (dpsi_dtheta s
          + Rpower 0.5 h * z * sin theta / distance_mirror h theta z ^ 3).
Proof.
  intros H. destruct (Req_dec_T (distance_mirror h theta z) 0) as [E | N].
  - rewrite mirror_contribution_coincident in H by exact E. discriminate H.
  - rewrite mirror_contribution_ok in H by exact N. injection H as <-. auto.
Qed.

(** ** The conformal factor never drops below the flat background *)

Lemma half_over_positive (d : R) : 0 <= d -> d <> 0 -> 0 < 0.5 / d.
Proof.
  intros Hd Hn. apply Rdiv_lt_0_compat; lra.
Qed.

Lemma direct_contribution_psi (h theta z : R) (s s1 : ConformalFactorSample) :
  direct_contribution h theta z s = Ok s1 -> psi s <= psi s1.
Proof.
  intros H. apply direct_contribution_inv in H as [Hd ->]. simpl.
  pose proof (half_over_positive _ (distance_nonneg h theta z) Hd). lra.
Qed.

Lemma mirror_contribution_psi (h theta z : R) (s s1 : ConformalFactorSample) :
  mirror_contribution h theta z s = Ok s1 -> psi s <= psi s1.
Proof.
  intros H. apply mirror_contribution_inv in H as [Hd ->]. simpl.
  pose proof (half_over_positive _ (distance_mirror_nonneg h theta z) Hd). lra.
Qed.

Lemma source_contribution_psi (h theta z : R) (s s' : ConformalFactorSample) :
  source_contribution h theta z s = Ok s' -> psi s <= psi s'.
Proof.
  unfold source_contribution. intros H.
  apply bind_ok_inv in H as (s1 & H1 & H2).
  apply direct_contribution_psi in H1.
  destruct (Rgt_dec z 0.0) as [_ | _].
  - apply mirror_contribution_psi in H2. lra.
  - injection H2 as <-. exact H1.
Qed.

Lemma accumulate_psi (h theta : R) (zs : list R) :
  forall s s', accumulate h theta zs s = Ok s' -> psi s <= psi s'.
Proof.
  induction zs as [| z rest IH]; simpl; intros s s' H.
  - injection H as <-. lra.
  - apply bind_ok_inv in H as (s1 & H1 & H2).
    apply source_contribution_psi in H1. apply IH in H2. lra.
Qed.

Lemma singularity_field_psi (h theta : R) (zs : list R) (s : ConformalFactorSample) :
  singularity_field h theta zs = Ok s -> 1 <= psi s.
Proof.
  intros H. apply accumulate_psi in H. simpl in H. lra.
Qed.

(** ** The loop succeeds when no source sits at the query point *)

Lemma not_coincident_cons (h theta z : R) (rest : list R) :
  not_coincident h theta (z :: rest) ->
  (distance h theta z <> 0 /\ (z > 0 -> distance_mirror h theta z <> 0))
  /\ not_coincident h theta rest.
Proof.
  intros H. split.
  - apply H. left. reflexivity.
  - intros z' Hin. apply H. right. exact Hin.
Qed.

Lemma source_contribution_defined (h theta z : R) (s : ConformalFactorSample) :
  distance h theta z <> 0 ->
  (z > 0 -> distance_mirror h theta z <> 0) ->
  exists s', source_contribution h theta z s = Ok s'.
Proof.
  intros Hd Hm. unfold source_contribution.
  rewrite direct_contribution_ok by exact Hd. simpl.
  destruct (Rgt_dec z 0.0) as [P | _].
  - rewrite mirror_contribution_ok by (apply Hm; lra). eauto.
  - eauto.
Qed.

Lemma accumulate_defined (h theta : R) (zs : list R) :
  not_coincident h theta zs ->
  forall s, exists s', accumulate h theta zs s = Ok s'.
Proof.
  induction zs as [| z rest IH]; intros Hnc s; simpl.
  - eauto.
  - apply not_coincident_cons in Hnc as [[Hd Hm] Hrest].
    destruct (source_contribution_defined h theta z s Hd Hm) as [s1 ->]. simpl.
    apply IH. exact Hrest.
Qed.

(** ** The assertion *)

Lemma all_nonneg_valid (zs : list R) :
  all_nonneg zs = true <-> valid_singularities zs.
Proof.
  unfold all_nonneg, valid_singularities. rewrite forallb_forall. split.
  - intros H z Hin. specialize (H z Hin).
    destruct (Rge_dec z 0.0) as [P | _]; [lra | discriminate H].
  - intros H z Hin. specialize (H z Hin).
    destruct (Rge_dec z 0.0) as [_ | N]; [reflexivity | exfalso; lra].
Qed.

Lemma all_nonneg_negative (zs : list R) :
  (exists z, In z zs /\ z < 0) -> all_nonneg zs = false.
Proof.
  intros (z & Hin & Hz). destruct (all_nonneg zs) eqn:E; [| reflexivity].
  apply all_nonneg_valid in E. specialize (E z Hin). lra.
Qed.

(** ** The normalisation factor and the cotangent term *)

Lemma sq_plus_one_neq_0 (q : R) : 1.0 + q ^ 2 <> 0.
Proof. pose proof (pow2_ge_0 q). lra. Qed.

Lemma normal_factor_ok (h dh : R) :
  h <> 0 -> normal_factor h dh = Ok (1.0 / (1.0 + (dh / h) ^ 2)).
Proof.
  intros Hh. unfold normal_factor. rewrite (divide_ok _ _ Hh). simpl.
  apply divide_ok. apply sq_plus_one_neq_0.
Qed.

Lemma normal_factor_pos (h dh : R) : 0 < 1.0 / (1.0 + (dh / h) ^ 2).
Proof.
  pose proof (pow2_ge_0 (dh / h)). apply Rdiv_lt_0_compat; lra.
Qed.

Lemma cot_term_on_axis (theta dh C2 : R) :
  on_axis theta = true -> cot_theta_dh_C2 theta dh C2 = Ok 0.0.
Proof. intros H. unfold cot_theta_dh_C2. rewrite H. reflexivity. Qed.

(** Off the axis the term, when it has a value, is [dh / (tan theta * C2)],
    which is zero only for [dh = 0]. *)
Lemma cot_term_off_axis_inv (theta dh C2 c : R) :
  on_axis theta = false ->
  cot_theta_dh_C2 theta dh C2 = Ok c ->
  tan theta * C2 <> 0 /\ c = dh / (tan theta * C2).
Proof.
  intros Hax H. unfold cot_theta_dh_C2 in H. rewrite Hax in H.
  apply bind_ok_inv in H as (t & Ht & Hd).
  unfold np_tan in Ht. destruct (Req_dec_T (cos theta) 0); [discriminate Ht |].
  injection Ht as <-. apply divide_inv in Hd. exact Hd.
Qed.

Lemma cot_term_off_axis_nonzero (theta dh C2 : R) :
  on_axis theta = false -> dh <> 0 ->
  forall c, cot_theta_dh_C2 theta dh C2 = Ok c -> c <> 0.
Proof.
  intros Hax Hdh c H. unfold cot_theta_dh_C2 in H. rewrite Hax in H.
  apply bind_ok_inv in H as (t & _ & Hd).
  apply (divide_nonzero _ _ _ Hdh Hd).
Qed.

(** ** [horizon_RHS] in closed form *)

(** The second component of the returned vector, from the field sample [s],
    the normalisation factor [C2] and the cotangent term [cot]. *)
Lemma horizon_RHS_unfold (h dh theta : R) (zs : list R) :
  h <> 0 -> valid_singularities zs ->
  horizon_RHS (h, dh) theta zs =
  (s <- singularity_field h theta zs ;;
   cot <- cot_theta_dh_C2 theta dh (1.0 / (1.0 + (dh / h) ^ 2)) ;;
   Ok (dh,
       2.0 * h - cot
       + 4.0 * h ^ 2 / (psi s * (1.0 / (1.0 + (dh / h) ^ 2)))
         * (dpsi_dr s - dpsi_dtheta s * dh / h ^ 2)
       + 3.0 * dh ^ 2 / h)).
Proof.
  intros Hh Hvalid. unfold horizon_RHS.
  apply all_nonneg_valid in Hvalid. rewrite Hvalid. cbn [fst snd].
  destruct (singularity_field h theta zs) as [s | e] eqn:Hs; cbn [bind];
    [| reflexivity].
  rewrite (normal_factor_ok h dh Hh). cbn [bind].
  destruct (cot_theta_dh_C2 theta dh (1.0 / (1.0 + (dh / h) ^ 2))) as [cot | e];
    cbn [bind]; [| reflexivity].
  pose proof (singularity_field_psi _ _ _ _ Hs) as Hpsi.
  pose proof (normal_factor_pos h dh) as HC2.
  rewrite divide_ok by (apply Rmult_integral_contrapositive_currified; lra).
  cbn [bind]. rewrite divide_ok by (apply pow_nonzero; exact Hh).
  cbn [bind]. rewrite divide_ok by exact Hh.
  reflexivity.
Qed.

Lemma horizon_RHS_rejects (H : StateVector) (theta : R) (zs : list R) :
  (exists z, In z zs /\ z < 0) -> horizon_RHS H theta zs = Err AssertionError.
Proof.
  intros Hneg. unfold horizon_RHS. rewrite (all_nonneg_negative zs Hneg). reflexivity.
Qed.

(** ** Trigonometric facts at the angles used below *)

Lemma PI_gt_3 : 3 < PI.
Proof. pose proof PI2_3_2. lra. Qed.

(** The double [numpy.pi] lies below pi (and within [2e-16] of it). *)
Lemma np_pi_lt_PI : np_pi < PI.
Proof.
  pose proof (PI_2_3_7_ineq 7) as [L _].
  assert (B : np_pi / 4 < sum_f_R0 (tg_alt PI_2_3_7_tg) (S (2 * 7))).
  { unfold np_pi, tg_alt, PI_2_3_7_tg, Ratan_seq. simpl. lra. }
  lra.
Qed.

Lemma PI_lt_np_pi_plus : PI < np_pi + 2e-16.
Proof.
  pose proof (PI_2_3_7_ineq 8) as [_ U].
  assert (B : sum_f_R0 (tg_alt PI_2_3_7_tg) (2 * 8) < (np_pi + 2e-16) / 4).
  { unfold np_pi, tg_alt, PI_2_3_7_tg, Ratan_seq. simpl. lra. }
  lra.
Qed.

(** The gap between [numpy.pi] and pi is wider than the guard's [1e-16]. *)
Lemma np_pi_gap : np_pi + 1.2e-16 < PI.
Proof.
  pose proof (PI_2_3_7_ineq 8) as [L _].
  assert (B : (np_pi + 1.2e-16) / 4
              < sum_f_R0 (tg_alt PI_2_3_7_tg) (S (2 * 8))).
  { unfold np_pi, tg_alt, PI_2_3_7_tg, Ratan_seq. simpl. lra. }
  lra.
Qed.

Lemma np_pi_bounds : 3 < np_pi < 4.
Proof. unfold np_pi. lra. Qed.

Lemma on_axis_0 : on_axis 0 = true.
Proof.
  unfold on_axis. rewrite Rabs_R0.
  destruct (Rlt_dec 0 1e-16) as [_ | N]; [reflexivity | exfalso; lra].
Qed.

Lemma on_axis_true (theta : R) :
  Rabs theta < 1e-16 \/ Rabs (theta - np_pi) < 1e-16 -> on_axis theta = true.
Proof.
  intros H. unfold on_axis.
  destruct (Rlt_dec (Rabs theta) 1e-16) as [_ | N]; [reflexivity |].
  destruct (Rlt_dec (Rabs (theta - np_pi)) 1e-16) as [_ | N']; [reflexivity |].
  tauto.
Qed.

Lemma on_axis_false (theta : R) :
  1e-16 <= theta -> theta <= np_pi - 1e-16 \/ np_pi + 1e-16 <= theta ->
  on_axis theta = false.
Proof.
  intros Hlo Hhi. unfold on_axis.
  destruct (Rlt_dec (Rabs theta) 1e-16) as [P | _].
  - exfalso. rewrite Rabs_right in P by lra. lra.
  - destruct (Rlt_dec (Rabs (theta - np_pi)) 1e-16) as [P | _]; [| reflexivity].
    exfalso. destruct Hhi as [Hhi | Hhi].
    + rewrite Rabs_left1 in P by lra. lra.
    + rewrite Rabs_right in P by lra. lra.
Qed.

Lemma on_axis_half_np_pi : on_axis (np_pi / 2) = false.
Proof. pose proof np_pi_bounds. apply on_axis_false; [lra | left; lra]. Qed.

(** [numpy.pi/2] is strictly between 0 and pi/2: sine, cosine and tangent
    are positive there. *)
Lemma half_np_pi_interior : 0 < np_pi / 2 < PI / 2.
Proof. pose proof np_pi_bounds. pose proof np_pi_lt_PI. lra. Qed.

Lemma interior_sin_cos_pos (theta : R) :
  0 < theta < PI / 2 -> 0 < sin theta /\ 0 < cos theta.
Proof.
  intros [Hlo Hhi]. pose proof PI_RGT_0. split.
  - apply sin_gt_0; lra.
  - apply cos_gt_0; lra.
Qed.

Lemma distance_half_PI (h z : R) :
  distance h (PI / 2) z = sqrt (h ^ 2 + z ^ 2).
Proof.
  unfold distance. rewrite sin_PI2, cos_PI2. f_equal. ring.
Qed.

Lemma distance_mirror_half_PI (h z : R) :
  distance_mirror h (PI / 2) z = sqrt (h ^ 2 + z ^ 2).
Proof.
  unfold distance_mirror. rewrite sin_PI2, cos_PI2. f_equal. ring.
Qed.

Lemma sqrt_sum_squares_neq_0 (h z : R) : h <> 0 -> sqrt (h ^ 2 + z ^ 2) <> 0.
Proof.
  intros Hh. pose proof (pow2_ge_0 z).
  assert (0 < h ^ 2) by (pose proof (Rsqr_pos_lt h Hh) as P; unfold Rsqr in P; lra).
  assert (0 < sqrt (h ^ 2 + z ^ 2)) by (apply sqrt_lt_R0; lra). lra.
Qed.

Lemma distance_3_4_5 : distance 3 (PI / 2) 4 = 5.
Proof.
  rewrite distance_half_PI.
  replace (3 ^ 2 + 4 ^ 2) with (5 ^ 2) by lra.
  apply sqrt_pow2. lra.
Qed.

Lemma Rpower_half_3 : Rpower 0.5 3 = 1 / 8.
Proof.
  replace 3 with (INR 3) at 1 by (simpl; lra).
  rewrite Rpower_pow by lra. lra.
Qed.

(** ** The field on the equator *)

Lemma source_contribution_half_PI (h z : R) (s : ConformalFactorSample) :
  h <> 0 -> z >= 0 ->
  exists s', source_contribution h (PI / 2) z s = Ok s'
             /\ dpsi_dtheta s' = dpsi_dtheta s.
Proof.
  intros Hh Hz.
  pose proof (sqrt_sum_squares_neq_0 h z Hh) as Hd.
  destruct (Rgt_dec z 0) as [P | N].
  - rewrite source_contribution_off_origin by exact P.
    rewrite direct_contribution_ok by (rewrite distance_half_PI; exact Hd).
    cbn [bind].
    rewrite mirror_contribution_ok by (rewrite distance_mirror_half_PI; exact Hd).
    eexists. split; [reflexivity |]. cbn [dpsi_dtheta].
    rewrite distance_half_PI, distance_mirror_half_PI. ring.
  - assert (z = 0) as -> by lra.
    rewrite source_contribution_not_positive by lra.
    rewrite direct_contribution_ok by (rewrite distance_half_PI; exact Hd).
    eexists. split; [reflexivity |]. cbn [dpsi_dtheta].
    unfold Rdiv. ring.
Qed.

Lemma accumulate_half_PI (h : R) (zs : list R) :
  h <> 0 -> valid_singularities zs ->
  forall s, exists s', accumulate h (PI / 2) zs s = Ok s'
                       /\ dpsi_dtheta s' = dpsi_dtheta s.
Proof.
  intros Hh. induction zs as [| z rest IH]; intros Hvalid s; simpl.
  - eauto.
  - assert (Hz : z >= 0) by (apply Hvalid; left; reflexivity).
    destruct (source_contribution_half_PI h z s Hh Hz) as (s1 & -> & E1).
    cbn [bind].
    destruct (IH (fun z' Hin => Hvalid z' (or_intror Hin)) s1) as (s' & E & E').
    exists s'. split; [exact E | congruence].
Qed.

(** ** What the accumulated terms are derivatives of

    A source adds [0.5/distance] to [psi].  Its derivative in the radius is
    the amount the code subtracts from [dpsi_dr]; its derivative in the angle
    is [-0.5*h*z*sin(theta)/distance^3]. *)

Lemma radicand_pos (h theta z : R) :
  distance h theta z <> 0 -> 0 < h ^ 2 - 2 * h * z * cos theta + z ^ 2.
Proof.
  intros Hd. rewrite <- radicand_direct.
  destruct (Rlt_dec 0 ((h * sin theta) ^ 2 + (h * cos theta - z) ^ 2)) as [P | N];
    [exact P |].
  exfalso. apply Hd. unfold distance. apply sqrt_neg_0. lra.
Qed.

Lemma reciprocal_sqrt_derivative (g : R -> R) (x l : R) :
  0 < g x -> derivable_pt_lim g x l ->
  derivable_pt_lim (fun t => 0.5 / sqrt (g t)) x
    (- (0.5 * (l / 2) / sqrt (g x) ^ 3)).
Proof.
  intros Hpos Hg.
  pose proof (sqrt_lt_R0 _ Hpos) as Hs.
  pose proof (derivable_pt_lim_comp g sqrt x l _ Hg
                (derivable_pt_lim_sqrt _ Hpos)) as Hc.
  pose proof (derivable_pt_lim_div (fct_cte 0.5) (comp sqrt g) x 0 _
                (derivable_pt_lim_const 0.5 x) Hc) as Hd.
  unfold comp at 3 4 in Hd. unfold fct_cte at 2 in Hd.
  assert (Hn : sqrt (g x) <> 0) by lra. specialize (Hd Hn).
  replace (- (0.5 * (l / 2) / sqrt (g x) ^ 3))
    with ((0 * sqrt (g x) - / (2 * sqrt (g x)) * l * 0.5) / (sqrt (g x))²).
  - apply (derivable_pt_lim_ext _ _ _ _ (fun t => eq_refl) Hd).
  - unfold Rsqr. assert (E : 0.5 = 1 / 2) by lra. rewrite E. field. exact Hn.
Qed.

Lemma psi_term_theta_derivative (h z theta : R) :
  distance h theta z <> 0 ->
  derivable_pt_lim (fun t => 0.5 / distance h t z) theta
    (- (0.5 * h * z * sin theta / distance h theta z ^ 3)).
Proof.
  intros Hd. pose proof (radicand_pos h theta z Hd) as Hpos.
  set (g := fun t => h ^ 2 - 2 * h * z * cos t + z ^ 2).
  assert (Hg : derivable_pt_lim g theta (2 * h * z * sin theta)).
  { pose proof (derivable_pt_lim_plus _ _ theta _ _
                  (derivable_pt_lim_const (h ^ 2 + z ^ 2) theta)
                  (derivable_pt_lim_scal cos (- (2 * h * z)) theta _
                     (derivable_pt_lim_cos theta))) as H.
    replace (2 * h * z * sin theta) with (0 + - (2 * h * z) * - sin theta) by ring.
    refine (derivable_pt_lim_ext _ _ _ _ _ H).
    intros t. unfold plus_fct, fct_cte, mult_real_fct, g. ring. }
  pose proof (reciprocal_sqrt_derivative g theta _ Hpos Hg) as H.
  assert (Edist : forall t, 0.5 / sqrt (g t) = 0.5 / distance h t z).
  { intros t. unfold distance, g. rewrite radicand_direct. reflexivity. }
  replace (- (0.5 * h * z * sin theta / distance h theta z ^ 3))
    with (- (0.5 * (2 * h * z * sin theta / 2) / sqrt (g theta) ^ 3)).
  - apply (derivable_pt_lim_ext _ _ _ _ Edist H).
  - unfold distance. rewrite radicand_direct. fold (g theta).
    f_equal. f_equal. lra.
Qed.

Lemma psi_term_radius_derivative (h z theta : R) :
  distance h theta z <> 0 ->
  derivable_pt_lim (fun r => 0.5 / distance r theta z) h
    (- (0.5 * (h - z * cos theta) / distance h theta z ^ 3)).
Proof.
  intros Hd. pose proof (radicand_pos h theta z Hd) as Hpos.
  set (g := fun r => r ^ 2 - 2 * r * z * cos theta + z ^ 2).
  assert (Hg : derivable_pt_lim g h (2 * (h - z * cos theta))).
  { pose proof (derivable_pt_lim_plus _ _ h _ _
                  (derivable_pt_lim_plus _ _ h _ _
                     (derivable_pt_lim_mult id id h 1 1
                        (derivable_pt_lim_id h) (derivable_pt_lim_id h))
                     (derivable_pt_lim_scal id (- (2 * z * cos theta)) h 1
                        (derivable_pt_lim_id h)))
                  (derivable_pt_lim_const (z ^ 2) h)) as H.
    replace (2 * (h - z * cos theta))
      with (1 * id h + id h * 1 + - (2 * z * cos theta) * 1 + 0)
      by (unfold id; ring).
    refine (derivable_pt_lim_ext _ _ _ _ _ H).
    intros r. unfold plus_fct, mult_fct, fct_cte, mult_real_fct, id, g. ring. }
  pose proof (reciprocal_sqrt_derivative g h _ Hpos Hg) as H.
  assert (Edist : forall r, 0.5 / sqrt (g r) = 0.5 / distance r theta z).
  { intros r. unfold distance, g. rewrite radicand_direct. reflexivity. }
  replace (- (0.5 * (h - z * cos theta) / distance h theta z ^ 3))
    with (- (0.5 * (2 * (h - z * cos theta) / 2) / sqrt (g h) ^ 3)).
  - apply (derivable_pt_lim_ext _ _ _ _ Edist H).
  - unfold distance. rewrite radicand_direct. fold (g h).
    f_equal. f_equal. lra.
Qed.

(** ** Claims about the field *)

(** C1 (the code departs from the claim).  At [h = 3], [theta = pi/2] and a
    source at [z = 4] the distance is 5, and the direct accumulation leaves
    [psi = 1 + 0.5/5] and [dpsi_dr = -0.5*(3 - 4 cos theta)/5^3] as the claim
    says, but [dpsi_dtheta = -(0.5^3)*4*sin theta/5^3 = -1/250], not the
    claimed [-0.5*3*4*sin theta/5^3 = -6/125]: the code writes [0.5**h] where
    the derivative of [0.5/distance] in [theta] has [0.5*h]
    ([psi_term_theta_derivative]), while the [dpsi_dr] line is the derivative
    in the radius ([psi_term_radius_derivative]). *)
Theorem direct_contribution_theta_term_uses_power :
  direct_contribution 3 (PI / 2) 4 flat_background
  = Ok (mkSample (1.0 + 0.5 / 5)
                 (0.0 - 0.5 * (3 - 4 * cos (PI / 2)) / 5 ^ 3)
                 (0.0 - 1 / 8 * 4 * sin (PI / 2) / 5 ^ 3))
  /\ 0.0 - 1 / 8 * 4 * sin (PI / 2) / 5 ^ 3 = - 1 / 250
  /\ 0.0 - 0.5 * 3 * 4 * sin (PI / 2) / 5 ^ 3 = - 6 / 125.
Proof.
  split; [| split].
  - rewrite direct_contribution_ok by (rewrite distance_3_4_5; lra).
    rewrite distance_3_4_5, Rpower_half_3. reflexivity.
  - rewrite sin_PI2. lra.
  - rewrite sin_PI2. lra.
Qed.

(** C6.  The mirror update is the direct update evaluated at [-z]; for
    [z > 0] the loop body adds both, with [psi] and [dpsi_dr] changed in the
    same direction by the two and the [dpsi_dtheta] term entering with the
    opposite sign; for [z = 0] the body is the direct update alone. *)
Theorem source_contribution_reflection
    (h theta z : R) (s : ConformalFactorSample) :
  mirror_contribution h theta z s = direct_contribution h theta (- z) s
  /\ (z > 0 ->
      distance h theta z <> 0 -> distance_mirror h theta z <> 0 ->
      source_contribution h theta z s =
      Ok (mkSample
            (psi s + 0.5 / distance h theta z
                   + 0.5 / distance_mirror h theta z)
            (dpsi_dr s
             - 0.5 * (h - z * cos theta) / distance h theta z ^ 3
             - 0.5 * (h + z * cos theta) / distance_mirror h theta z ^ 3)
            (dpsi_dtheta s
             - Rpower 0.5 h * z * sin theta / distance h theta z ^ 3
             + Rpower 0.5 h * z * sin theta / distance_mirror h theta z ^ 3)))
  /\ (z = 0 ->
      source_contribution h theta z s = direct_contribution h theta z s).
Proof.
  split; [| split].
  - apply mirror_is_direct_at_opposite.
  - intros Hz Hd Hm.
    rewrite source_contribution_off_origin by exact Hz.
    rewrite direct_contribution_ok by exact Hd. cbn [bind].
    rewrite mirror_contribution_ok by exact Hm. reflexivity.
  - intros Hz. apply source_contribution_not_positive. lra.
Qed.

Lemma source_contribution_reflection_witness :
  (4 > 0 /\ distance 3 (PI / 2) 4 <> 0 /\ distance_mirror 3 (PI / 2) 4 <> 0)
  /\ source_contribution 3 (PI / 2) 4 flat_background =
     Ok (mkSample
           (psi flat_background + 0.5 / distance 3 (PI / 2) 4
                                + 0.5 / distance_mirror 3 (PI / 2) 4)
           (dpsi_dr flat_background
            - 0.5 * (3 - 4 * cos (PI / 2)) / distance 3 (PI / 2) 4 ^ 3
            - 0.5 * (3 + 4 * cos (PI / 2)) / distance_mirror 3 (PI / 2) 4 ^ 3)
           (dpsi_dtheta flat_background
            - Rpower 0.5 3 * 4 * sin (PI / 2) / distance 3 (PI / 2) 4 ^ 3
            + Rpower 0.5 3 * 4 * sin (PI / 2)
              / distance_mirror 3 (PI / 2) 4 ^ 3))
  /\ source_contribution 3 (PI / 2) 0 flat_background
     = direct_contribution 3 (PI / 2) 0 flat_background.
Proof.
  assert (Hd : distance 3 (PI / 2) 4 <> 0).
  { rewrite distance_half_PI. apply sqrt_sum_squares_neq_0. lra. }
  assert (Hm : distance_mirror 3 (PI / 2) 4 <> 0).
  { rewrite distance_mirror_half_PI. apply sqrt_sum_squares_neq_0. lra. }
  assert (Hz : 4 > 0) by lra.
  split; [auto | split].
  - exact (proj1 (proj2 (source_contribution_reflection
                           3 (PI / 2) 4 flat_background)) Hz Hd Hm).
  - exact (proj2 (proj2 (source_contribution_reflection
                           3 (PI / 2) 0 flat_background)) eq_refl).
Defined.

(** C10.  On the equator [theta = pi/2], for [h > 0] and non-negative
    source positions, the loop succeeds and leaves [dpsi_dtheta] exactly 0. *)
Theorem dpsi_dtheta_zero_on_equator (h : R) (zs : list R) :
  h > 0 -> valid_singularities zs ->
  not_coincident h (PI / 2) zs
  /\ exists s, singularity_field h (PI / 2) zs = Ok s /\ dpsi_dtheta s = 0.
Proof.
  intros Hh Hvalid. assert (Hh' : h <> 0) by lra. split.
  - intros z _. rewrite distance_half_PI, distance_mirror_half_PI.
    pose proof (sqrt_sum_squares_neq_0 h z Hh'). auto.
  - destruct (accumulate_half_PI h zs Hh' Hvalid flat_background) as (s & E & E').
    exists s. split; [exact E |]. rewrite E'. cbn [dpsi_dtheta flat_background]. lra.
Qed.

Lemma dpsi_dtheta_zero_on_equator_witness :
  3 > 0 /\ valid_singularities [4; 0]
  /\ exists s, singularity_field 3 (PI / 2) [4; 0] = Ok s /\ dpsi_dtheta s = 0.
Proof.
  assert (Hv : valid_singularities [4; 0]).
  { intros z [<- | [<- | []]]; lra. }
  split; [lra | split; [exact Hv |]].
  apply (dpsi_dtheta_zero_on_equator 3 [4; 0]); [lra | exact Hv].
Defined.

(** ** Where a distance is zero *)

Lemma sq_eq_0 (x : R) : x ^ 2 = 0 -> x = 0.
Proof.
  intros H. destruct (Req_dec_T x 0) as [E | N]; [exact E |].
  pose proof (Rsqr_pos_lt x N) as P. unfold Rsqr in P. exfalso. lra.
Qed.

(** A distance of zero puts the query point on the axis, at the source. *)
Lemma distance_zero_iff (h theta z : R) :
  distance h theta z = 0 <-> h * sin theta = 0 /\ h * cos theta = z.
Proof.
  unfold distance. split.
  - intros H. apply sqrt_eq_0 in H.
    + pose proof (pow2_ge_0 (h * sin theta)) as P1.
      pose proof (pow2_ge_0 (h * cos theta - z)) as P2.
      assert (E1 : (h * sin theta) ^ 2 = 0) by lra.
      assert (E2 : (h * cos theta - z) ^ 2 = 0) by lra.
      apply sq_eq_0 in E1. apply sq_eq_0 in E2. split; lra.
    + pose proof (pow2_ge_0 (h * sin theta)).
      pose proof (pow2_ge_0 (h * cos theta - z)). lra.
  - intros [E1 E2]. rewrite E1, E2.
    replace (0 ^ 2 + (z - z) ^ 2) with 0 by ring. apply sqrt_0.
Qed.

Lemma distance_mirror_zero_iff (h theta z : R) :
  distance_mirror h theta z = 0 <-> h * sin theta = 0 /\ h * cos theta = - z.
Proof. rewrite distance_mirror_direct. apply distance_zero_iff. Qed.

Lemma off_axis_not_coincident (h theta : R) (zs : list R) :
  h * sin theta <> 0 -> not_coincident h theta zs.
Proof.
  intros Hoff z _. split.
  - intros E. apply distance_zero_iff in E. tauto.
  - intros _ E. apply distance_mirror_zero_iff in E. tauto.
Qed.

(** ** The angle [numpy.pi/2] *)

Lemma tan_half_np_pi_pos : 0 < tan (np_pi / 2).
Proof.
  destruct half_np_pi_interior as [Hlo Hhi]. apply tan_gt_0; assumption.
Qed.

Lemma cot_term_half_np_pi (dh C2 : R) :
  0 < C2 ->
  0 < tan (np_pi / 2) * C2
  /\ cot_theta_dh_C2 (np_pi / 2) dh C2 = Ok (dh / (tan (np_pi / 2) * C2)).
Proof.
  intros HC2. pose proof tan_half_np_pi_pos as Ht.
  assert (Hp : 0 < tan (np_pi / 2) * C2) by (apply Rmult_lt_0_compat; assumption).
  split; [exact Hp |].
  unfold cot_theta_dh_C2. rewrite on_axis_half_np_pi. unfold np_tan.
  destruct (interior_sin_cos_pos _ half_np_pi_interior) as [_ Hc].
  destruct (Req_dec_T (cos (np_pi / 2)) 0) as [E | _]; [exfalso; lra |].
  cbn [bind]. apply divide_ok. lra.
Qed.

Lemma not_coincident_half_np_pi (h : R) (zs : list R) :
  h <> 0 -> not_coincident h (np_pi / 2) zs.
Proof.
  intros Hh. apply off_axis_not_coincident.
  destruct (interior_sin_cos_pos _ half_np_pi_interior) as [Hs _].
  apply Rmult_integral_contrapositive_currified; [exact Hh | lra].
Qed.

(** ** Claims about [horizon_RHS] *)

(** C4.  For [h <> 0] and non-negative source positions, [horizon_RHS]
    returns [(dh, 2h - cot_term + 4h^2/(psi*C2)*(dpsi_dr - dpsi_dtheta*dh/h^2)
    + 3dh^2/h)] with [C2 = 1/(1 + (dh/h)^2)], from the field sample and the
    cotangent term at [(h, theta)]; it has a value exactly when these two
    have. *)
Theorem horizon_RHS_formula (h dh theta : R) (zs : list R) :
  h <> 0 -> valid_singularities zs ->
  let C2 := 1.0 / (1.0 + (dh / h) ^ 2) in
  horizon_RHS (h, dh) theta zs =
  (s <- singularity_field h theta zs ;;
   cot <- cot_theta_dh_C2 theta dh C2 ;;
   Ok (dh,
       2.0 * h - cot
       + 4.0 * h ^ 2 / (psi s * C2) * (dpsi_dr s - dpsi_dtheta s * dh / h ^ 2)
       + 3.0 * dh ^ 2 / h))
  /\ forall s cot,
       singularity_field h theta zs = Ok s ->
       cot_theta_dh_C2 theta dh C2 = Ok cot ->
       horizon_RHS (h, dh) theta zs =
       Ok (dh,
           2.0 * h - cot
           + 4.0 * h ^ 2 / (psi s * C2)
             * (dpsi_dr s - dpsi_dtheta s * dh / h ^ 2)
           + 3.0 * dh ^ 2 / h).
Proof.
  intros Hh Hvalid C2. subst C2. split.
  - apply horizon_RHS_unfold; assumption.
  - intros s cot Hs Hcot.
    rewrite horizon_RHS_unfold by assumption.
    rewrite Hs. cbn [bind]. rewrite Hcot. reflexivity.
Qed.

Lemma horizon_RHS_formula_witness :
  (3 <> 0 /\ valid_singularities [4])
  /\ exists s cot,
       singularity_field 3 (np_pi / 2) [4] = Ok s
       /\ cot_theta_dh_C2 (np_pi / 2) 1 (1.0 / (1.0 + (1 / 3) ^ 2)) = Ok cot
       /\ horizon_RHS (3, 1) (np_pi / 2) [4] =
          Ok (1,
              2.0 * 3 - cot
              + 4.0 * 3 ^ 2 / (psi s * (1.0 / (1.0 + (1 / 3) ^ 2)))
                * (dpsi_dr s - dpsi_dtheta s * 1 / 3 ^ 2)
              + 3.0 * 1 ^ 2 / 3).
Proof.
  assert (Hh : 3 <> 0) by lra.
  assert (Hv : valid_singularities [4]).
  { intros z [<- | []]. lra. }
  destruct (accumulate_defined 3 (np_pi / 2) [4]
              (not_coincident_half_np_pi 3 [4] Hh) flat_background) as [s Hs].
  destruct (cot_term_half_np_pi 1 (1.0 / (1.0 + (1 / 3) ^ 2))
              (normal_factor_pos 3 1)) as [_ Hcot].
  split; [split; assumption |].
  exists s, (1 / (tan (np_pi / 2) * (1.0 / (1.0 + (1 / 3) ^ 2)))).
  split; [exact Hs | split; [exact Hcot |]].
  exact (proj2 (horizon_RHS_formula 3 1 (np_pi / 2) [4] Hh Hv) s _ Hs Hcot).
Defined.

(** C9.  The empty list passes the assertion, and for [h <> 0] the result is
    the flat-space right-hand side [(dh, 2h - cot_term + 3dh^2/h)]. *)
Theorem horizon_RHS_no_singularities (h dh theta : R) :
  h <> 0 ->
  all_nonneg [] = true
  /\ singularity_field h theta [] = Ok (mkSample 1.0 0.0 0.0)
  /\ horizon_RHS (h, dh) theta [] =
     (cot <- cot_theta_dh_C2 theta dh (1.0 / (1.0 + (dh / h) ^ 2)) ;;
      Ok (dh, 2.0 * h - cot + 3.0 * dh ^ 2 / h)).
Proof.
  intros Hh. split; [reflexivity | split; [reflexivity |]].
  rewrite horizon_RHS_unfold; [| exact Hh | intros z []].
  unfold singularity_field. cbn [accumulate bind].
  destruct (cot_theta_dh_C2 theta dh (1.0 / (1.0 + (dh / h) ^ 2))) as [cot | e];
    cbn [bind]; [| reflexivity].
  f_equal. f_equal. cbn [flat_background psi dpsi_dr dpsi_dtheta].
  replace (0.0 - 0.0 * dh / h ^ 2) with 0 by (unfold Rdiv; lra).
  lra.
Qed.

Lemma horizon_RHS_no_singularities_witness :
  2 <> 0
  /\ horizon_RHS (2, 1) 0 [] =
     (cot <- cot_theta_dh_C2 0 1 (1.0 / (1.0 + (1 / 2) ^ 2)) ;;
      Ok (1, 2.0 * 2 - cot + 3.0 * 1 ^ 2 / 2)).
Proof.
  assert (Hh : 2 <> 0) by lra.
  split; [exact Hh |].
  exact (proj2 (proj2 (horizon_RHS_no_singularities 2 1 0 Hh))).
Defined.

Lemma horizon_RHS_guarded (h dh theta : R) (zs : list R) :
  h <> 0 -> valid_singularities zs -> on_axis theta = true ->
  not_coincident h theta zs ->
  cot_theta_dh_C2 theta dh (1.0 / (1.0 + (dh / h) ^ 2)) = Ok 0.0
  /\ exists s,
       singularity_field h theta zs = Ok s
       /\ horizon_RHS (h, dh) theta zs =
          Ok (dh,
              2.0 * h - 0.0
              + 4.0 * h ^ 2 / (psi s * (1.0 / (1.0 + (dh / h) ^ 2)))
                * (dpsi_dr s - dpsi_dtheta s * dh / h ^ 2)
              + 3.0 * dh ^ 2 / h).
Proof.
  intros Hh Hvalid Hax Hnc.
  pose proof (cot_term_on_axis theta dh (1.0 / (1.0 + (dh / h) ^ 2)) Hax) as Hcot.
  split; [exact Hcot |].
  destruct (accumulate_defined h theta zs Hnc flat_background) as [s Hs].
  exists s. split; [exact Hs |].
  rewrite horizon_RHS_unfold by assumption.
  unfold singularity_field. rewrite Hs. cbn [bind]. rewrite Hcot. reflexivity.
Qed.

Lemma horizon_RHS_half_np_pi (h dh : R) (zs : list R) :
  h <> 0 -> valid_singularities zs ->
  exists s,
    singularity_field h (np_pi / 2) zs = Ok s
    /\ horizon_RHS (h, dh) (np_pi / 2) zs =
       Ok (dh,
           2.0 * h - dh / (tan (np_pi / 2) * (1.0 / (1.0 + (dh / h) ^ 2)))
           + 4.0 * h ^ 2 / (psi s * (1.0 / (1.0 + (dh / h) ^ 2)))
             * (dpsi_dr s - dpsi_dtheta s * dh / h ^ 2)
           + 3.0 * dh ^ 2 / h).
Proof.
  intros Hh Hvalid.
  destruct (accumulate_defined h (np_pi / 2) zs
              (not_coincident_half_np_pi h zs Hh) flat_background) as [s Hs].
  destruct (cot_term_half_np_pi dh _ (normal_factor_pos h dh)) as [_ Hcot].
  exists s. split; [exact Hs |].
  rewrite horizon_RHS_unfold by assumption.
  unfold singularity_field. rewrite Hs. cbn [bind]. rewrite Hcot. reflexivity.
Qed.

Lemma horizon_RHS_empty (h dh theta : R) :
  h <> 0 ->
  horizon_RHS (h, dh) theta [] =
  (cot <- cot_theta_dh_C2 theta dh (1.0 / (1.0 + (dh / h) ^ 2)) ;;
   Ok (dh, 2.0 * h - cot + 3.0 * dh ^ 2 / h)).
Proof.
  intros Hh. rewrite horizon_RHS_unfold; [| exact Hh | intros z []].
  unfold singularity_field. cbn [accumulate bind].
  destruct (cot_theta_dh_C2 theta dh (1.0 / (1.0 + (dh / h) ^ 2))) as [cot | e];
    cbn [bind]; [| reflexivity].
  f_equal. f_equal. cbn [flat_background psi dpsi_dr dpsi_dtheta].
  replace (0.0 - 0.0 * dh / h ^ 2) with 0 by (unfold Rdiv; lra).
  lra.
Qed.

Lemma quotient_zero_iff (x y : R) : y <> 0 -> (x / y = 0 <-> x = 0).
Proof.
  intros Hy. split.
  - intros H. destruct (Req_dec_T x 0) as [E | N]; [exact E |].
    exfalso. revert H. unfold Rdiv.
    apply Rmult_integral_contrapositive_currified;
      [exact N | apply Rinv_neq_0_compat; exact Hy].
  - intros ->. unfold Rdiv. ring.
Qed.

Lemma distance_on_axis_neq_0 (h z : R) : h <> z -> distance h 0 z <> 0.
Proof.
  intros Hne. unfold distance. rewrite sin_0, cos_0.
  assert (P : 0 < (h * 0) ^ 2 + (h * 1 - z) ^ 2).
  { assert (Q : h - z <> 0) by lra.
    pose proof (Rsqr_pos_lt _ Q) as S. unfold Rsqr in S. nra. }
  pose proof (sqrt_lt_R0 _ P). lra.
Qed.

Lemma distance_mirror_on_axis_neq_0 (h z : R) :
  h <> - z -> distance_mirror h 0 z <> 0.
Proof.
  intros Hne. rewrite distance_mirror_direct. apply distance_on_axis_neq_0. exact Hne.
Qed.

Lemma distance_on_axis_coincident (h : R) : distance h 0 h = 0.
Proof.
  unfold distance. rewrite sin_0, cos_0.
  replace ((h * 0) ^ 2 + (h * 1 - h) ^ 2) with 0 by ring. apply sqrt_0.
Qed.

(** C2, as the code has it.  For [h <> 0] and non-negative source
    positions: at an angle within [1e-16] of 0 or of [numpy.pi] (the guard),
    with no source at the query point, [horizon_RHS] returns a vector and the
    cotangent term is exactly 0 whatever [dh] is.  At [numpy.pi/2] it
    returns a vector too, but the guard is not taken there: the term is
    [dh / (tan theta * C2)], with a positive divisor, and is zero only for
    [dh = 0]. *)
Theorem horizon_RHS_boundary_angles (h dh : R) (zs : list R) :
  h <> 0 -> valid_singularities zs ->
  let C2 := 1.0 / (1.0 + (dh / h) ^ 2) in
  (forall theta,
     Rabs theta < 1e-16 \/ Rabs (theta - np_pi) < 1e-16 ->
     not_coincident h theta zs ->
     cot_theta_dh_C2 theta dh C2 = Ok 0.0
     /\ exists s,
          singularity_field h theta zs = Ok s
          /\ horizon_RHS (h, dh) theta zs =
             Ok (dh,
                 2.0 * h - 0.0
                 + 4.0 * h ^ 2 / (psi s * C2)
                   * (dpsi_dr s - dpsi_dtheta s * dh / h ^ 2)
                 + 3.0 * dh ^ 2 / h))
  /\ cot_theta_dh_C2 (np_pi / 2) dh C2 = Ok (dh / (tan (np_pi / 2) * C2))
  /\ 0 < tan (np_pi / 2) * C2
  /\ (dh / (tan (np_pi / 2) * C2) = 0 <-> dh = 0)
  /\ exists s,
       singularity_field h (np_pi / 2) zs = Ok s
       /\ horizon_RHS (h, dh) (np_pi / 2) zs =
          Ok (dh,
              2.0 * h - dh / (tan (np_pi / 2) * C2)
              + 4.0 * h ^ 2 / (psi s * C2)
                * (dpsi_dr s - dpsi_dtheta s * dh / h ^ 2)
              + 3.0 * dh ^ 2 / h).
Proof.
  intros Hh Hvalid C2. subst C2.
  destruct (cot_term_half_np_pi dh _ (normal_factor_pos h dh)) as [Hpos Hcot].
  split; [| split; [exact Hcot | split; [exact Hpos | split]]].
  - intros theta Hguard Hnc.
    apply horizon_RHS_guarded; try assumption. apply on_axis_true. exact Hguard.
  - apply quotient_zero_iff. lra.
  - apply horizon_RHS_half_np_pi; assumption.
Qed.

Lemma horizon_RHS_boundary_angles_witness :
  (2 <> 0 /\ valid_singularities [1]
   /\ (Rabs 0 < 1e-16 \/ Rabs (0 - np_pi) < 1e-16)
   /\ not_coincident 2 0 [1])
  /\ cot_theta_dh_C2 0 1 (1.0 / (1.0 + (1 / 2) ^ 2)) = Ok 0.0
  /\ (exists s,
        singularity_field 2 0 [1] = Ok s
        /\ horizon_RHS (2, 1) 0 [1] =
           Ok (1,
               2.0 * 2 - 0.0
               + 4.0 * 2 ^ 2 / (psi s * (1.0 / (1.0 + (1 / 2) ^ 2)))
                 * (dpsi_dr s - dpsi_dtheta s * 1 / 2 ^ 2)
               + 3.0 * 1 ^ 2 / 2))
  /\ exists s,
       singularity_field 2 (np_pi / 2) [1] = Ok s
       /\ horizon_RHS (2, 1) (np_pi / 2) [1] =
          Ok (1,
              2.0 * 2
              - 1 / (tan (np_pi / 2) * (1.0 / (1.0 + (1 / 2) ^ 2)))
              + 4.0 * 2 ^ 2 / (psi s * (1.0 / (1.0 + (1 / 2) ^ 2)))
                * (dpsi_dr s - dpsi_dtheta s * 1 / 2 ^ 2)
              + 3.0 * 1 ^ 2 / 2).
Proof.
  assert (Hh : 2 <> 0) by lra.
  assert (Hv : valid_singularities [1]).
  { intros z [<- | []]. lra. }
  assert (Hg : Rabs 0 < 1e-16 \/ Rabs (0 - np_pi) < 1e-16)
    by (left; rewrite Rabs_R0; lra).
  assert (Hnc : not_coincident 2 0 [1]).
  { intros z [<- | []]. split.
    - apply distance_on_axis_neq_0. lra.
    - intros _. apply distance_mirror_on_axis_neq_0. lra. }
  pose proof (horizon_RHS_boundary_angles 2 1 [1] Hh Hv) as (Hax & _ & _ & _ & Heq).
  destruct (Hax 0 Hg Hnc) as [Hcot Hval].
  split; [split; [exact Hh | split; [exact Hv | split; [exact Hg | exact Hnc]]] |].
  split; [exact Hcot | split; [exact Hval | exact Heq]].
Defined.

(** C2 as stated fails at [theta = pi/2].  At [numpy.pi/2] the guard is not
    taken: with [h = dh = 1] and no source, [horizon_RHS] returns a vector,
    but the cotangent term is [1 / (tan theta * C2)], which is positive, not
    zero, and is subtracted from the second component. *)
Lemma horizon_RHS_equator_cot_term_not_zero :
  on_axis (np_pi / 2) = false
  /\ cot_theta_dh_C2 (np_pi / 2) 1 (1.0 / (1.0 + (1 / 1) ^ 2))
     = Ok (1 / (tan (np_pi / 2) * (1.0 / (1.0 + (1 / 1) ^ 2))))
  /\ 0 < 1 / (tan (np_pi / 2) * (1.0 / (1.0 + (1 / 1) ^ 2)))
  /\ horizon_RHS (1, 1) (np_pi / 2) []
     = Ok (1,
           2.0 * 1 - 1 / (tan (np_pi / 2) * (1.0 / (1.0 + (1 / 1) ^ 2)))
           + 3.0 * 1 ^ 2 / 1).
Proof.
  destruct (cot_term_half_np_pi 1 _ (normal_factor_pos 1 1)) as [Hpos Hcot].
  split; [apply on_axis_half_np_pi | split; [exact Hcot | split]].
  - apply Rdiv_lt_0_compat; lra.
  - rewrite horizon_RHS_empty by lra. rewrite Hcot. reflexivity.
Qed.

(** ** The Schwarzschild case: one source at the origin, [h = 0.5], [dh = 0] *)

Lemma distance_origin (h theta : R) : 0 <= h -> distance h theta 0.0 = h.
Proof.
  intros Hh. unfold distance. rewrite radicand_direct.
  replace (h ^ 2 - 2 * h * 0.0 * cos theta + 0.0 ^ 2) with (h ^ 2) by lra.
  apply sqrt_pow2. exact Hh.
Qed.

Lemma valid_origin : valid_singularities [0.0].
Proof. intros z [<- | []]. lra. Qed.

Lemma schwarzschild_field (theta : R) :
  singularity_field 0.5 theta [0.0] = Ok (mkSample 2 (- 2) 0).
Proof.
  unfold singularity_field. cbn [accumulate].
  rewrite source_contribution_not_positive by lra.
  assert (Hd : distance 0.5 theta 0.0 = 0.5) by (apply distance_origin; lra).
  rewrite direct_contribution_ok by (rewrite Hd; lra).
  rewrite Hd. cbn [bind flat_background psi dpsi_dr dpsi_dtheta].
  f_equal. apply sample_eq; [lra | | lra].
  replace (0.0 * cos theta) with 0 by lra. lra.
Qed.

Lemma tan_neq_0 (theta : R) : sin theta <> 0 -> cos theta <> 0 -> tan theta <> 0.
Proof.
  intros Hs Hc. unfold tan, Rdiv.
  apply Rmult_integral_contrapositive_currified;
    [exact Hs | apply Rinv_neq_0_compat; exact Hc].
Qed.

Lemma cot_term_zero_dh (theta C2 : R) :
  regular_angle theta -> C2 <> 0 ->
  exists c, cot_theta_dh_C2 theta 0.0 C2 = Ok c /\ c = 0.
Proof.
  intros Hreg HC2. unfold cot_theta_dh_C2.
  destruct (on_axis theta) eqn:Hax.
  - exists 0.0. split; [reflexivity | lra].
  - destruct Hreg as [Habs | [Hs Hc]]; [congruence |].
    unfold np_tan. destruct (Req_dec_T (cos theta) 0) as [E | _]; [contradiction |].
    cbn [bind].
    assert (Hn : tan theta * C2 <> 0).
    { apply Rmult_integral_contrapositive_currified;
        [apply tan_neq_0; assumption | exact HC2]. }
    rewrite (divide_ok _ _ Hn). eexists. split; [reflexivity |].
    unfold Rdiv. lra.
Qed.

Lemma horizon_RHS_schwarzschild (theta : R) :
  regular_angle theta ->
  horizon_RHS schwarzschild_state theta [0.0] = Ok (0, 0).
Proof.
  intros Hreg. unfold schwarzschild_state.
  rewrite horizon_RHS_unfold; [| lra | exact valid_origin].
  rewrite schwarzschild_field. cbn [bind psi dpsi_dr dpsi_dtheta].
  assert (HC2 : 1.0 / (1.0 + (0.0 / 0.5) ^ 2) = 1) by lra.
  rewrite HC2.
  destruct (cot_term_zero_dh theta 1 Hreg) as (c & -> & ->); [lra |].
  cbn [bind]. f_equal. f_equal; lra.
Qed.

Lemma euler_step_schwarzschild (theta dtheta : R) :
  regular_angle theta ->
  euler_step schwarzschild_state theta dtheta [0.0] = Ok schwarzschild_state.
Proof.
  intros Hreg. unfold euler_step.
  rewrite horizon_RHS_schwarzschild by exact Hreg. cbn [bind].
  unfold vadd, vscale, schwarzschild_state. cbn [fst snd]. f_equal. f_equal; lra.
Qed.

Lemma rk2_step_schwarzschild (theta dtheta : R) :
  regular_angle theta -> regular_angle (theta + dtheta) ->
  rk2_step schwarzschild_state theta dtheta [0.0] = Ok schwarzschild_state.
Proof.
  intros Hreg Hreg'. unfold rk2_step.
  rewrite horizon_RHS_schwarzschild by exact Hreg. cbn [bind].
  assert (Hp : vadd schwarzschild_state (vscale dtheta (0, 0)) = schwarzschild_state).
  { unfold vadd, vscale, schwarzschild_state. cbn [fst snd]. f_equal; lra. }
  rewrite Hp. rewrite horizon_RHS_schwarzschild by exact Hreg'. cbn [bind].
  unfold vadd, vscale, schwarzschild_state. cbn [fst snd]. f_equal. f_equal; lra.
Qed.

(** ** The grid and the driver *)

Lemma march_fixed (step : stepper) (H : StateVector) (dtheta : R) (zs : list R)
    (thetas : list R) :
  (forall theta, In theta thetas -> step H theta dtheta zs = Ok H) ->
  march step H thetas dtheta zs = Ok (repeat H (length thetas)).
Proof.
  induction thetas as [| theta rest IH]; intros Hfix; simpl.
  - reflexivity.
  - rewrite Hfix by (left; reflexivity). cbn [bind].
    rewrite IH by (intros t Hin; apply Hfix; right; exact Hin).
    reflexivity.
Qed.

Lemma march_first_error (step : stepper) (H : StateVector) (dtheta : R)
    (zs : list R) (theta : R) (rest : list R) (e : error) :
  step H theta dtheta zs = Err e ->
  march step H (theta :: rest) dtheta zs = Err e.
Proof. intros E. simpl. rewrite E. reflexivity. Qed.

Lemma firstn_seq_le (k : nat) :
  forall start len, (k <= len)%nat -> firstn k (seq start len) = seq start k.
Proof.
  induction k as [| k IH]; intros start len Hle; [reflexivity |].
  destruct len as [| len]; [lia |]. simpl. f_equal. apply IH. lia.
Qed.

Lemma linspace_grid (Ntheta : nat) :
  linspace 0.0 (np_pi / 2.0) Ntheta = map (grid_angle Ntheta) (seq 0 Ntheta).
Proof. reflexivity. Qed.

Lemma firstn_grid (Ntheta k : nat) :
  (k <= Ntheta)%nat ->
  firstn k (linspace 0.0 (np_pi / 2.0) Ntheta)
  = map (grid_angle Ntheta) (seq 0 k).
Proof.
  intros Hle. rewrite linspace_grid, firstn_map, firstn_seq_le by exact Hle.
  reflexivity.
Qed.

Lemma integrate_unfold (step : stepper) (h0 : R) (Ntheta : nat) (zs : list R) :
  (2 <= Ntheta)%nat ->
  integrate step h0 Ntheta zs =
  (tl <- march step (h0, 0.0) (map (grid_angle Ntheta) (seq 0 (Ntheta - 1)))
           (grid_dtheta Ntheta) zs ;;
   Ok ((h0, 0.0) :: tl)).
Proof.
  intros HN. unfold integrate. cbv zeta.
  rewrite firstn_grid by lia.
  destruct Ntheta as [| [| n]]; [lia | lia |].
  reflexivity.
Qed.

Lemma integrate_short_grid (step : stepper) (h0 : R) (Ntheta : nat) (zs : list R) :
  (Ntheta < 2)%nat -> integrate step h0 Ntheta zs = Err IndexError.
Proof.
  intros HN. destruct Ntheta as [| [| n]]; [reflexivity | reflexivity | lia].
Qed.

Lemma grid_angle_0 (Ntheta : nat) : grid_angle Ntheta 0 = 0.
Proof. unfold grid_angle. simpl. lra. Qed.

Lemma grid_angle_succ (Ntheta i : nat) :
  grid_angle Ntheta (S i) = grid_angle Ntheta i + grid_dtheta Ntheta.
Proof.
  unfold grid_dtheta, grid_angle. rewrite S_INR. simpl. lra.
Qed.

(** Every grid angle after the first lies strictly between 0 and pi/2,
    the last one, [numpy.pi/2], included. *)
Lemma grid_angle_interior (Ntheta i : nat) :
  (0 < i)%nat -> (i <= Ntheta - 1)%nat ->
  0 < grid_angle Ntheta i < PI / 2.
Proof.
  intros Hi Hle. unfold grid_angle.
  pose proof (lt_0_INR i Hi) as Hk.
  pose proof (le_INR _ _ Hle) as Hkn.
  destruct half_np_pi_interior as [Hlo Hhi].
  set (k := INR i) in *. set (n := INR (Ntheta - 1)) in *.
  assert (Hn : 0 < n) by lra.
  assert (E0 : 0.0 = 0) by lra. assert (E2 : 2.0 = 2) by lra.
  assert (E : 0.0 + k * ((np_pi / 2.0 - 0.0) / n) = np_pi / 2 * (k / n))
    by (rewrite E0, E2; field; lra).
  rewrite E.
  assert (Hq : 0 < k / n) by (apply Rdiv_lt_0_compat; lra).
  assert (Hq1 : k / n <= 1).
  { apply (Rmult_le_reg_r n); [exact Hn |].
    replace (k / n * n) with k by (field; lra). lra. }
  split; nra.
Qed.

Lemma grid_angle_regular (Ntheta i : nat) :
  (i < Ntheta)%nat -> regular_angle (grid_angle Ntheta i).
Proof.
  intros Hlt. destruct i as [| i].
  - left. rewrite grid_angle_0. apply on_axis_0.
  - right.
    destruct (interior_sin_cos_pos _ (grid_angle_interior Ntheta (S i)
                ltac:(lia) ltac:(lia))) as [Hs Hc].
    split; lra.
Qed.

Lemma regular_angle_off_multiples (theta : R) :
  (forall k : Z, theta <> IZR k * (PI / 2)) -> regular_angle theta.
Proof.
  intros Hk. right. split; intros H.
  - apply sin_eq_0_0 in H as [k E]. apply (Hk (2 * k)%Z).
    rewrite E, mult_IZR. lra.
  - apply cos_eq_0_0 in H as [k E]. apply (Hk (2 * k + 1)%Z).
    rewrite E, plus_IZR, mult_IZR. lra.
Qed.

(** [2*numpy.pi] is not a zero of the tangent. *)
Lemma regular_two_np_pi : regular_angle (2 * np_pi).
Proof.
  pose proof np_pi_bounds. pose proof np_pi_lt_PI. pose proof PI_lt_np_pi_plus.
  pose proof PI_RGT_0.
  set (x := 2 * np_pi - 2 * PI).
  assert (Hx : - (PI / 2) < x < 0) by (unfold x; lra).
  assert (E : 2 * np_pi = x + 2 * INR 1 * PI) by (unfold x; simpl; ring).
  right. rewrite E, sin_period, cos_period. split.
  - assert (sin x < 0) by (apply sin_lt_0_var; lra). lra.
  - assert (0 < cos x) by (apply cos_gt_0; lra). lra.
Qed.

Lemma integrate_constant (step : stepper) (Ntheta : nat) :
  (2 <= Ntheta)%nat ->
  (forall i, (i < Ntheta - 1)%nat ->
     step schwarzschild_state (grid_angle Ntheta i) (grid_dtheta Ntheta) [0.0]
     = Ok schwarzschild_state) ->
  integrate step 0.5 Ntheta [0.0] = Ok (repeat schwarzschild_state Ntheta).
Proof.
  intros HN Hstep. rewrite integrate_unfold by exact HN.
  fold schwarzschild_state.
  rewrite march_fixed.
  - cbn [bind]. rewrite length_map, length_seq.
    destruct Ntheta as [| n]; [lia |].
    replace (S n - 1)%nat with n by lia. reflexivity.
  - intros theta Hin. apply in_map_iff in Hin as (i & <- & Hi).
    apply in_seq in Hi. apply Hstep. lia.
Qed.

Lemma integrate_euler_schwarzschild (Ntheta : nat) :
  (2 <= Ntheta)%nat ->
  integrate euler_step 0.5 Ntheta [0.0] = Ok (repeat schwarzschild_state Ntheta).
Proof.
  intros HN. apply integrate_constant; [exact HN |].
  intros i Hi. apply euler_step_schwarzschild. apply grid_angle_regular. lia.
Qed.

Lemma integrate_rk2_schwarzschild (Ntheta : nat) :
  (2 <= Ntheta)%nat ->
  integrate rk2_step 0.5 Ntheta [0.0] = Ok (repeat schwarzschild_state Ntheta).
Proof.
  intros HN. apply integrate_constant; [exact HN |].
  intros i Hi. apply rk2_step_schwarzschild.
  - apply grid_angle_regular. lia.
  - rewrite <- grid_angle_succ. apply grid_angle_regular. lia.
Qed.

(** ** Claims about the Schwarzschild case *)

(** C3.  With the single source [0.0] the state [(0.5, 0)] is a fixed
    point of [horizon_RHS]: it returns [(0, 0)] at every angle where the
    cotangent term has a value, that is in the guard or where the tangent
    exists and is not zero, which is every angle that is not a multiple of
    [pi/2] (no floating-point angle other than 0 is one), and every angle of
    the grid from 0 to [numpy.pi/2], the last included.  So an Euler step and
    an RK2 step return the state unchanged, and the trajectory over the grid
    of [Ntheta >= 2] angles is [(0.5, 0)] at every grid point for both
    steppers. *)
Theorem schwarzschild_state_preserved :
  (forall theta, regular_angle theta ->
     horizon_RHS schwarzschild_state theta [0.0] = Ok (0, 0))
  /\ (forall theta, (forall k : Z, theta <> IZR k * (PI / 2)) ->
        regular_angle theta)
  /\ (forall theta dtheta, regular_angle theta ->
        euler_step schwarzschild_state theta dtheta [0.0]
        = Ok schwarzschild_state)
  /\ (forall theta dtheta,
        regular_angle theta -> regular_angle (theta + dtheta) ->
        rk2_step schwarzschild_state theta dtheta [0.0]
        = Ok schwarzschild_state)
  /\ (forall Ntheta, (2 <= Ntheta)%nat ->
        (forall i, (i < Ntheta)%nat -> regular_angle (grid_angle Ntheta i))
        /\ integrate euler_step 0.5 Ntheta [0.0]
           = Ok (repeat schwarzschild_state Ntheta)
        /\ integrate rk2_step 0.5 Ntheta [0.0]
           = Ok (repeat schwarzschild_state Ntheta)).
Proof.
  split; [exact horizon_RHS_schwarzschild |].
  split; [exact regular_angle_off_multiples |].
  split; [exact euler_step_schwarzschild |].
  split; [exact rk2_step_schwarzschild |].
  intros Ntheta HN. split; [| split].
  - intros i Hi. apply grid_angle_regular. exact Hi.
  - apply integrate_euler_schwarzschild. exact HN.
  - apply integrate_rk2_schwarzschild. exact HN.
Qed.

Lemma schwarzschild_state_preserved_witness :
  (regular_angle (np_pi / 2) /\ regular_angle (2 * np_pi) /\ (2 <= 100)%nat)
  /\ horizon_RHS schwarzschild_state (np_pi / 2) [0.0] = Ok (0, 0)
  /\ horizon_RHS schwarzschild_state (2 * np_pi) [0.0] = Ok (0, 0)
  /\ integrate euler_step 0.5 100 [0.0] = Ok (repeat schwarzschild_state 100)
  /\ integrate rk2_step 0.5 100 [0.0] = Ok (repeat schwarzschild_state 100).
Proof.
  assert (Hreg : regular_angle (np_pi / 2)).
  { right. destruct (interior_sin_cos_pos _ half_np_pi_interior). split; lra. }
  pose proof regular_two_np_pi as Hreg2.
  assert (HN : (2 <= 100)%nat) by lia.
  pose proof schwarzschild_state_preserved as (Hfix & _ & _ & _ & Hgrid).
  destruct (Hgrid 100%nat HN) as (_ & He & Hr).
  split; [split; [exact Hreg | split; [exact Hreg2 | exact HN]] |].
  split; [exact (Hfix _ Hreg) | split; [exact (Hfix _ Hreg2) | split; assumption]].
Defined.

(** ** Claims about the assertion and the steppers *)

(** C5.  A list with a negative entry is rejected by the assertion of
    [horizon_RHS] whatever the state and the angle are, before the loop over
    the sources and before any division; both steppers, the driver, the
    residual and the secant solver on that residual fail with the same
    error. *)
Theorem negative_singularity_rejected (zs : list R) :
  (exists z, In z zs /\ z < 0) ->
  (forall H theta, horizon_RHS H theta zs = Err AssertionError)
  /\ (forall H theta dtheta,
        euler_step H theta dtheta zs = Err AssertionError
        /\ rk2_step H theta dtheta zs = Err AssertionError)
  /\ (forall step : stepper,
        (forall H theta dtheta, step H theta dtheta zs = Err AssertionError) ->
        forall Ntheta, (2 <= Ntheta)%nat ->
          (forall h0, integrate step h0 Ntheta zs = Err AssertionError)
          /\ (forall h0, residual step Ntheta h0 zs = Err AssertionError)
          /\ (forall x0 x1 tolerance maxIterations,
                secant (fun h0 => residual step Ntheta h0 zs)
                       x0 x1 tolerance maxIterations
                = Err AssertionError)).
Proof.
  intros Hneg.
  assert (HF : forall H theta, horizon_RHS H theta zs = Err AssertionError)
    by (intros; apply horizon_RHS_rejects; exact Hneg).
  split; [exact HF | split].
  - intros H theta dtheta. unfold euler_step, rk2_step. rewrite HF. auto.
  - intros step Hstep Ntheta HN.
    assert (HI : forall h0, integrate step h0 Ntheta zs = Err AssertionError).
    { intros h0. rewrite integrate_unfold by exact HN.
      destruct Ntheta as [| [| n]]; [lia | lia |].
      replace (S (S n) - 1)%nat with (S n) by lia.
      cbn [seq map]. rewrite (march_first_error _ _ _ _ _ _ AssertionError).
      - reflexivity.
      - apply Hstep. }
    assert (HR : forall h0, residual step Ntheta h0 zs = Err AssertionError).
    { intros h0. unfold residual. rewrite HI. reflexivity. }
    split; [exact HI | split; [exact HR |]].
    intros x0 x1 tolerance maxIterations.
    unfold secant, secant_start. rewrite HR. reflexivity.
Qed.

Lemma negative_singularity_rejected_witness :
  (exists z, In z [0.75; -1] /\ z < 0)
  /\ horizon_RHS (0, 0) 0 [0.75; -1] = Err AssertionError
  /\ euler_step (0.5, 0.0) 0 1 [0.75; -1] = Err AssertionError.
Proof.
  assert (Hneg : exists z, In z [0.75; -1] /\ z < 0).
  { exists (-1). split; [right; left; reflexivity | lra]. }
  split; [exact Hneg | split].
  - exact (proj1 (negative_singularity_rejected [0.75; -1] Hneg) (0, 0) 0).
  - exact (proj1 (proj1 (proj2 (negative_singularity_rejected [0.75; -1] Hneg))
                    (0.5, 0.0) 0 1)).
Defined.

(** C7.  The RK2 corrector [0.5 * (H_i + H_p + dtheta * F(H_p, theta_{i+1}))]
    equals the trapezoidal form
    [H_i + dtheta/2 * (F(H_i, theta_i) + F(H_p, theta_{i+1}))], for every
    state, angle, step and list of sources, and fails exactly when it does. *)
Theorem rk2_step_is_trapezoidal
    (Hi : StateVector) (theta_i dtheta : R) (zs : list R) :
  rk2_step Hi theta_i dtheta zs = rk2_trapezoid Hi theta_i dtheta zs.
Proof.
  unfold rk2_step, rk2_trapezoid.
  destruct (horizon_RHS Hi theta_i zs) as [Fi | e]; cbn [bind]; [| reflexivity].
  destruct (horizon_RHS (vadd Hi (vscale dtheta Fi)) (theta_i + dtheta) zs)
    as [Fp | e]; cbn [bind]; [| reflexivity].
  destruct Hi as [h dh], Fi as [f1 f2], Fp as [p1 p2].
  unfold vadd, vscale. cbn [fst snd]. f_equal. f_equal; lra.
Qed.

(** ** The secant solver *)

Lemma converged_true (tolerance : R) (st : SecantState) :
  converged tolerance st = true <-> Rabs (r_cur st) < tolerance.
Proof.
  unfold converged. destruct (Rlt_dec (Rabs (r_cur st)) tolerance) as [P | N].
  - split; auto.
  - split; [intros H; discriminate H | intros H; contradiction].
Qed.

Lemma converged_false (tolerance : R) (st : SecantState) :
  converged tolerance st = false <-> ~ Rabs (r_cur st) < tolerance.
Proof.
  unfold converged. destruct (Rlt_dec (Rabs (r_cur st)) tolerance) as [P | N].
  - split; [intros H; discriminate H | intros H; contradiction].
  - split; auto.
Qed.

Section Secant.

Variable R_fn : R -> result R.
Variable tolerance : R.

Lemma secant_start_consistent (x0 x1 : R) (st0 : SecantState) :
  secant_start R_fn x0 x1 = Ok st0 -> consistent R_fn st0.
Proof.
  unfold secant_start. intros H.
  apply bind_ok_inv in H as (r0 & _ & H).
  apply bind_ok_inv in H as (r1 & H1 & H).
  injection H as <-. exact H1.
Qed.

Lemma secant_update_consistent (st st' : SecantState) :
  secant_update R_fn st = Ok st' -> consistent R_fn st'.
Proof.
  unfold secant_update. intros H.
  destruct (Req_dec_T (r_cur st - r_prev st) 0); [discriminate H |].
  destruct (Rle_dec _ 0); [discriminate H |].
  apply bind_ok_inv in H as (r & Hr & H). injection H as <-. exact Hr.
Qed.

Lemma secant_iterates_consistent (n : nat) :
  forall st st', consistent R_fn st ->
    secant_iterates R_fn n st = Ok st' -> consistent R_fn st'.
Proof.
  induction n as [| n IH]; simpl; intros st st' Hc H.
  - injection H as <-. exact Hc.
  - apply bind_ok_inv in H as (st1 & H1 & H).
    apply (IH st1); [apply (secant_update_consistent st); exact H1 | exact H].
Qed.

(** The loop returns the first iterate that meets the tolerance. *)
Lemma secant_loop_converges (budget : nat) :
  forall st n st', (n <= budget)%nat ->
    secant_iterates R_fn n st = Ok st' ->
    converged tolerance st' = true ->
    exists m st'', (m <= n)%nat
      /\ secant_iterates R_fn m st = Ok st''
      /\ converged tolerance st'' = true
      /\ secant_loop R_fn tolerance budget st = Ok (x_cur st'').
Proof.
  induction budget as [| budget IH]; intros st n st' Hn Hit Hconv.
  - assert (n = 0)%nat as -> by lia. simpl in Hit. injection Hit as <-.
    exists 0%nat, st. simpl. rewrite Hconv. auto.
  - destruct (converged tolerance st) eqn:Hst.
    + exists 0%nat, st. simpl. rewrite Hst. repeat split; auto. lia.
    + destruct n as [| n].
      * simpl in Hit. injection Hit as <-. congruence.
      * simpl in Hit. apply bind_ok_inv in Hit as (st1 & H1 & Hit).
        destruct (IH st1 n st') as (m & st'' & Hm & Hm1 & Hm2 & Hm3);
          [lia | exact Hit | exact Hconv |].
        exists (S m), st''. simpl. rewrite Hst, H1. cbn [bind].
        repeat split; auto. lia.
Qed.

(** The loop spends its whole budget when no iterate meets the
    tolerance, and reports the last iterate with its residual. *)
Lemma secant_loop_exhausts (budget : nat) :
  forall st st',
    secant_iterates R_fn budget st = Ok st' ->
    (forall n st'', (n <= budget)%nat ->
       secant_iterates R_fn n st = Ok st'' ->
       converged tolerance st'' = false) ->
    secant_loop R_fn tolerance budget st
    = Err (NonConvergenceError (x_cur st') (r_cur st')).
Proof.
  induction budget as [| budget IH]; intros st st' Hit Hnone.
  - simpl in Hit. injection Hit as <-. simpl.
    rewrite (Hnone 0%nat st); [reflexivity | lia | reflexivity].
  - simpl in Hit. apply bind_ok_inv in Hit as (st1 & H1 & Hit).
    simpl. rewrite (Hnone 0%nat st); [| lia | reflexivity].
    rewrite H1. cbn [bind]. apply IH; [exact Hit |].
    intros n st'' Hn Hn'. apply (Hnone (S n)); [lia |].
    simpl. rewrite H1. exact Hn'.
Qed.

(** Whatever the loop returns meets the tolerance. *)
Lemma secant_loop_sound (budget : nat) :
  forall st x, consistent R_fn st ->
    secant_loop R_fn tolerance budget st = Ok x ->
    exists r, R_fn x = Ok r /\ Rabs r < tolerance.
Proof.
  induction budget as [| budget IH]; intros st x Hc H; simpl in H.
  - destruct (converged tolerance st) eqn:Hst; [| discriminate H].
    injection H as <-. exists (r_cur st). split; [exact Hc |].
    apply converged_true. exact Hst.
  - destruct (converged tolerance st) eqn:Hst.
    + injection H as <-. exists (r_cur st). split; [exact Hc |].
      apply converged_true. exact Hst.
    + apply bind_ok_inv in H as (st1 & H1 & H).
      apply (IH st1); [apply (secant_update_consistent st); exact H1 | exact H].
Qed.

End Secant.

(** C8.  [secant] takes a [maxIterations] bound and a tolerance whose
    default is [1e-10].  When an iterate within the bound meets
    [|R(x_n)| < tolerance] it returns a root, an [x] with [|R(x)| < tolerance];
    when all [maxIterations] updates are made and no iterate meets the
    tolerance it fails with a [NonConvergenceError] that carries the last
    iterate and its residual; and it returns nothing but such roots. *)
Theorem secant_contract
    (R_fn : R -> result R) (x0 x1 tolerance : R) (maxIterations : nat)
    (st0 : SecantState) :
  secant_start R_fn x0 x1 = Ok st0 ->
  (forall n st, (n <= maxIterations)%nat ->
     secant_iterates R_fn n st0 = Ok st ->
     Rabs (r_cur st) < tolerance ->
     exists x r, secant R_fn x0 x1 tolerance maxIterations = Ok x
                 /\ R_fn x = Ok r /\ Rabs r < tolerance)
  /\ (forall st,
        secant_iterates R_fn maxIterations st0 = Ok st ->
        (forall n st', (n <= maxIterations)%nat ->
           secant_iterates R_fn n st0 = Ok st' ->
           ~ Rabs (r_cur st') < tolerance) ->
        secant R_fn x0 x1 tolerance maxIterations
        = Err (NonConvergenceError (x_cur st) (r_cur st))
        /\ R_fn (x_cur st) = Ok (r_cur st))
  /\ (forall x, secant R_fn x0 x1 tolerance maxIterations = Ok x ->
        exists r, R_fn x = Ok r /\ Rabs r < tolerance)
  /\ secant_default R_fn x0 x1 maxIterations
     = secant R_fn x0 x1 1e-10 maxIterations.
Proof.
  intros Hstart.
  pose proof (secant_start_consistent R_fn x0 x1 st0 Hstart) as Hc.
  assert (Hsec : secant R_fn x0 x1 tolerance maxIterations
                 = secant_loop R_fn tolerance maxIterations st0).
  { unfold secant. rewrite Hstart. reflexivity. }
  split; [| split; [| split]].
  - intros n st Hn Hit Htol. apply converged_true in Htol.
    destruct (secant_loop_converges R_fn tolerance maxIterations st0 n st Hn Hit Htol)
      as (m & st'' & _ & Hm1 & Hm2 & Hm3).
    exists (x_cur st''), (r_cur st''). rewrite Hsec. split; [exact Hm3 | split].
    + apply (secant_iterates_consistent R_fn m st0); assumption.
    + apply converged_true. exact Hm2.
  - intros st Hit Hnone. rewrite Hsec. split.
    + apply secant_loop_exhausts; [exact Hit |].
      intros n st'' Hn Hn'. apply converged_false. apply (Hnone n); assumption.
    + apply (secant_iterates_consistent R_fn maxIterations st0); assumption.
  - intros x Hx. rewrite Hsec in Hx.
    apply (secant_loop_sound R_fn tolerance maxIterations st0); assumption.
  - reflexivity.
Qed.

Lemma secant_contract_witness :
  let R_fn := fun x : R => Ok (x - 0.5) in
  let st0 := mkSecant 0.4 0.6 (0.4 - 0.5) (0.6 - 0.5) in
  secant_start R_fn 0.4 0.6 = Ok st0
  /\ (exists x r, secant R_fn 0.4 0.6 1e-10 1 = Ok x
                  /\ R_fn x = Ok r /\ Rabs r < 1e-10)
  /\ secant R_fn 0.4 0.6 1e-10 0 = Err (NonConvergenceError 0.6 (0.6 - 0.5)).
Proof.
  intros R_fn st0.
  assert (Hstart : secant_start R_fn 0.4 0.6 = Ok st0) by reflexivity.
  split; [exact Hstart | split].
  - set (x2 := 0.6 - (0.6 - 0.5) * (0.6 - 0.4) / (0.6 - 0.5 - (0.4 - 0.5))).
    assert (Ex2 : x2 = 0.5).
    { unfold x2. replace (0.6 - 0.5 - (0.4 - 0.5)) with 0.2 by lra. lra. }
    assert (Hit : secant_iterates R_fn 1 st0
                  = Ok (mkSecant 0.6 x2 (0.6 - 0.5) (x2 - 0.5))).
    { simpl. unfold secant_update. cbn [r_cur r_prev x_cur x_prev st0].
      destruct (Req_dec_T (0.6 - 0.5 - (0.4 - 0.5)) 0) as [E | _]; [exfalso; lra |].
      fold x2. destruct (Rle_dec x2 0) as [L | _]; [exfalso; lra |].
      reflexivity. }
    assert (Htol : Rabs (r_cur (mkSecant 0.6 x2 (0.6 - 0.5) (x2 - 0.5))) < 1e-10).
    { cbn [r_cur]. rewrite Ex2. replace (0.5 - 0.5) with 0 by lra.
      rewrite Rabs_R0. lra. }
    exact (proj1 (secant_contract R_fn 0.4 0.6 1e-10 1 st0 Hstart)
                 1%nat _ (le_n 1) Hit Htol).
  - assert (Hnone : forall n st', (n <= 0)%nat ->
              secant_iterates R_fn n st0 = Ok st' ->
              ~ Rabs (r_cur st') < 1e-10).
    { intros n st' Hn Hit. assert (n = 0)%nat as -> by lia.
      simpl in Hit. injection Hit as <-. cbn [r_cur st0].
      rewrite Rabs_right by lra. lra. }
    exact (proj1 (proj1 (proj2 (secant_contract R_fn 0.4 0.6 1e-10 0 st0 Hstart))
                        st0 eq_refl Hnone)).
Defined.

(** * Further properties of the code *)

(** ** The loop in closed form, and where it has a value *)

Lemma source_contribution_closed (h theta z : R) (s : ConformalFactorSample) :
  source_defined h theta z ->
  source_contribution h theta z s =
  Ok (mkSample (psi s + psi_gain h theta z)
               (dpsi_dr s - dpsi_dr_loss h theta z)
               (dpsi_dtheta s - dpsi_dtheta_loss h theta z)).
Proof.
  intros [Hd Hm]. unfold source_contribution, psi_gain, dpsi_dr_loss, dpsi_dtheta_loss.
  rewrite direct_contribution_ok by exact Hd. cbn [bind].
  destruct (Rgt_dec z 0.0) as [P | N].
  - rewrite mirror_contribution_ok by (apply Hm; lra).
    cbn [psi dpsi_dr dpsi_dtheta]. f_equal. apply sample_eq; ring.
  - f_equal. apply sample_eq; ring.
Qed.

Lemma source_contribution_inv (h theta z : R) (s s' : ConformalFactorSample) :
  source_contribution h theta z s = Ok s' -> source_defined h theta z.
Proof.
  unfold source_contribution. intros H.
  apply bind_ok_inv in H as (s1 & H1 & H2).
  apply direct_contribution_inv in H1 as [Hd _]. split; [exact Hd |].
  intros Hz. destruct (Rgt_dec z 0.0) as [_ | N]; [| exfalso; lra].
  apply mirror_contribution_inv in H2 as [Hm _]. exact Hm.
Qed.

Lemma source_contribution_error (h theta z : R) (s : ConformalFactorSample)
    (e : error) :
  source_contribution h theta z s = Err e -> e = NumericalDomainError.
Proof.
  unfold source_contribution.
  destruct (Req_dec_T (distance h theta z) 0) as [E | N].
  - rewrite direct_contribution_coincident by exact E. cbn [bind]. congruence.
  - rewrite direct_contribution_ok by exact N. cbn [bind].
    destruct (Rgt_dec z 0.0) as [_ | _]; [| discriminate].
    destruct (Req_dec_T (distance_mirror h theta z) 0) as [E' | N'].
    + rewrite mirror_contribution_coincident by exact E'. congruence.
    + rewrite mirror_contribution_ok by exact N'. discriminate.
Qed.

Lemma accumulate_closed (h theta : R) (zs : list R) :
  not_coincident h theta zs ->
  forall s,
    accumulate h theta zs s =
    Ok (mkSample (psi s + sum_over (psi_gain h theta) zs)
                 (dpsi_dr s - sum_over (dpsi_dr_loss h theta) zs)
                 (dpsi_dtheta s - sum_over (dpsi_dtheta_loss h theta) zs)).
Proof.
  induction zs as [| z rest IH]; intros Hnc s; cbn [accumulate sum_over fold_right].
  - f_equal. destruct s as [p r t]. apply sample_eq; cbn [psi dpsi_dr dpsi_dtheta]; ring.
  - apply not_coincident_cons in Hnc as [Hz Hrest].
    rewrite (source_contribution_closed h theta z s Hz). cbn [bind].
    rewrite (IH Hrest). cbn [psi dpsi_dr dpsi_dtheta].
    f_equal. apply sample_eq; unfold sum_over; ring.
Qed.

Lemma accumulate_inv (h theta : R) (zs : list R) :
  forall s s', accumulate h theta zs s = Ok s' -> not_coincident h theta zs.
Proof.
  induction zs as [| z rest IH]; intros s s' H.
  - intros z [].
  - cbn [accumulate] in H. apply bind_ok_inv in H as (s1 & H1 & H2).
    intros z' [<- | Hin].
    + apply (source_contribution_inv _ _ _ _ _ H1).
    + apply (IH _ _ H2 z' Hin).
Qed.

Lemma accumulate_error (h theta : R) (zs : list R) :
  forall s e, accumulate h theta zs s = Err e -> e = NumericalDomainError.
Proof.
  induction zs as [| z rest IH]; intros s e H; cbn [accumulate] in H.
  - discriminate H.
  - destruct (source_contribution h theta z s) as [s1 | e1] eqn:E1; cbn [bind] in H.
    + apply (IH _ _ H).
    + injection H as <-. apply (source_contribution_error _ _ _ _ _ E1).
Qed.

Lemma psi_gain_pos (h theta z : R) :
  source_defined h theta z -> 0 < psi_gain h theta z.
Proof.
  intros [Hd Hm]. unfold psi_gain.
  pose proof (half_over_positive _ (distance_nonneg h theta z) Hd) as P.
  destruct (Rgt_dec z 0.0) as [Q | _]; [| lra].
  assert (Hz : z > 0) by lra.
  pose proof (half_over_positive _ (distance_mirror_nonneg h theta z) (Hm Hz)). lra.
Qed.

Lemma sum_over_psi_gain_nonneg (h theta : R) (zs : list R) :
  not_coincident h theta zs -> 0 <= sum_over (psi_gain h theta) zs.
Proof.
  induction zs as [| z rest IH]; intros Hnc; cbn [sum_over fold_right].
  - lra.
  - apply not_coincident_cons in Hnc as [Hz Hrest].
    pose proof (psi_gain_pos h theta z Hz). specialize (IH Hrest).
    unfold sum_over in IH. lra.
Qed.

Lemma all_nonneg_false (zs : list R) :
  all_nonneg zs = false -> exists z, In z zs /\ z < 0.
Proof.
  unfold all_nonneg. induction zs as [| z rest IH]; cbn [forallb]; intros H.
  - discriminate H.
  - destruct (Rge_dec z 0.0) as [P | N].
    + destruct (IH H) as (z' & Hin & Hz'). exists z'. split; [right; exact Hin | exact Hz'].
    + exists z. split; [left; reflexivity | lra].
Qed.

Lemma cot_term_error (theta dh C2 : R) (e : error) :
  cot_theta_dh_C2 theta dh C2 = Err e -> e = NumericalDomainError.
Proof.
  unfold cot_theta_dh_C2, np_tan, divide.
  destruct (on_axis theta); [discriminate |].
  destruct (Req_dec_T (cos theta) 0); cbn [bind]; [congruence |].
  destruct (Req_dec_T (tan theta * C2) 0); [congruence | discriminate].
Qed.

Lemma cot_term_defined_iff (theta dh C2 : R) :
  C2 <> 0 ->
  (exists c, cot_theta_dh_C2 theta dh C2 = Ok c) <-> regular_angle theta.
Proof.
  intros HC2. unfold regular_angle. split.
  - intros [c H]. destruct (on_axis theta) eqn:Hax; [left; reflexivity | right].
    unfold cot_theta_dh_C2 in H. rewrite Hax in H.
    apply bind_ok_inv in H as (t & Ht & Hd).
    unfold np_tan in Ht. destruct (Req_dec_T (cos theta) 0) as [E | Hc];
      [discriminate Ht |].
    injection Ht as <-. apply divide_inv in Hd as [Hn _]. split; [| exact Hc].
    intros Hs. apply Hn. unfold tan. rewrite Hs. unfold Rdiv. ring.
  - intros Hreg. unfold cot_theta_dh_C2.
    destruct (on_axis theta) eqn:Hax; [eauto |].
    destruct Hreg as [Habs | [Hs Hc]]; [congruence |].
    unfold np_tan. destruct (Req_dec_T (cos theta) 0) as [E | _]; [contradiction |].
    cbn [bind]. rewrite divide_ok; [eauto |].
    apply Rmult_integral_contrapositive_currified;
      [apply tan_neq_0; assumption | exact HC2].
Qed.

Lemma normal_factor_neq_0 (h dh : R) : 1.0 / (1.0 + (dh / h) ^ 2) <> 0.
Proof. pose proof (normal_factor_pos h dh). lra. Qed.

(** ** Where the loop and [horizon_RHS] have a value *)

(** X1.  The loop over the sources has a value exactly when no source, and
    no mirror image of a source with [z > 0], lies at the query point; when
    it has none the failure is a division by a zero distance. *)
Theorem singularity_field_domain (h theta : R) (zs : list R) :
  ((exists s, singularity_field h theta zs = Ok s) <-> not_coincident h theta zs)
  /\ (forall e, singularity_field h theta zs = Err e -> e = NumericalDomainError).
Proof.
  unfold singularity_field. split; [split |].
  - intros [s H]. apply (accumulate_inv _ _ _ _ _ H).
  - intros Hnc. apply accumulate_defined. exact Hnc.
  - intros e H. apply (accumulate_error _ _ _ _ _ H).
Qed.

(** X2.  A distance is zero only for a query point on the axis that sits on
    the source; so off the axis ([h sin theta <> 0]) the loop has a value for
    every list of sources. *)
Theorem singularity_field_off_axis (h theta : R) (zs : list R) :
  h * sin theta <> 0 ->
  (forall z, distance h theta z <> 0 /\ distance_mirror h theta z <> 0)
  /\ exists s, singularity_field h theta zs = Ok s.
Proof.
  intros Hoff. split.
  - intros z. split; intros E.
    + apply distance_zero_iff in E. tauto.
    + apply distance_mirror_zero_iff in E. tauto.
  - apply accumulate_defined. apply off_axis_not_coincident. exact Hoff.
Qed.

Lemma singularity_field_off_axis_witness :
  1 * sin (PI / 2) <> 0
  /\ exists s, singularity_field 1 (PI / 2) [0.75; 0.0] = Ok s.
Proof.
  assert (Hoff : 1 * sin (PI / 2) <> 0) by (rewrite sin_PI2; lra).
  split; [exact Hoff |].
  exact (proj2 (singularity_field_off_axis 1 (PI / 2) [0.75; 0.0] Hoff)).
Defined.

(** X3.  When the loop has a value, [psi] is the flat background plus the
    sum of the sources' terms; it is at least 1, and above 1 as soon as there
    is a source. *)
Theorem singularity_field_psi_bound
    (h theta : R) (zs : list R) (s : ConformalFactorSample) :
  singularity_field h theta zs = Ok s ->
  psi s = psi_closed h theta zs
  /\ 1 <= psi s
  /\ (zs <> [] -> 1 < psi s).
Proof.
  intros H. unfold singularity_field in H.
  pose proof (accumulate_inv _ _ _ _ _ H) as Hnc.
  rewrite (accumulate_closed h theta zs Hnc) in H. injection H as <-.
  cbn [psi flat_background]. unfold psi_closed.
  pose proof (sum_over_psi_gain_nonneg h theta zs Hnc) as Hsum.
  split; [reflexivity | split; [lra |]].
  intros Hne. destruct zs as [| z rest]; [contradiction |].
  apply not_coincident_cons in Hnc as [Hz Hrest].
  pose proof (psi_gain_pos h theta z Hz).
  pose proof (sum_over_psi_gain_nonneg h theta rest Hrest) as Hr.
  cbn [sum_over fold_right]. unfold sum_over in Hr. lra.
Qed.

Lemma singularity_field_psi_bound_witness :
  exists s, singularity_field 3 (PI / 2) [4] = Ok s
            /\ psi s = psi_closed 3 (PI / 2) [4] /\ 1 <= psi s.
Proof.
  assert (Hoff : 3 * sin (PI / 2) <> 0) by (rewrite sin_PI2; lra).
  destruct (accumulate_defined 3 (PI / 2) [4]
              (off_axis_not_coincident 3 (PI / 2) [4] Hoff) flat_background)
    as [s Hs].
  exists s. split; [exact Hs |].
  pose proof (singularity_field_psi_bound 3 (PI / 2) [4] s Hs) as [E [B _]].
  split; assumption.
Defined.

Lemma horizon_RHS_value_exists (h dh theta : R) (zs : list R) :
  h <> 0 -> valid_singularities zs ->
  not_coincident h theta zs -> regular_angle theta ->
  exists v, horizon_RHS (h, dh) theta zs = Ok (dh, v).
Proof.
  intros Hh Hvalid Hnc Hreg.
  rewrite (horizon_RHS_unfold h dh theta zs Hh Hvalid).
  destruct (accumulate_defined h theta zs Hnc flat_background) as [s Hs].
  apply (cot_term_defined_iff theta dh _ (normal_factor_neq_0 h dh)) in Hreg
    as [cot Hcot].
  unfold singularity_field. rewrite Hs. cbn [bind]. rewrite Hcot. cbn [bind].
  eauto.
Qed.

(** X4.  For [h <> 0] and non-negative source positions [horizon_RHS] has a
    value exactly when no source lies at the query point and the cotangent
    term has one (the guard holds, or [sin theta] and [cos theta] are both
    non-zero); the value's first component is [dh]. *)
Theorem horizon_RHS_domain (h dh theta : R) (zs : list R) :
  h <> 0 -> valid_singularities zs ->
  ((exists v, horizon_RHS (h, dh) theta zs = Ok v)
   <-> not_coincident h theta zs /\ regular_angle theta)
  /\ (forall v, horizon_RHS (h, dh) theta zs = Ok v -> fst v = dh).
Proof.
  intros Hh Hvalid.
  pose proof (normal_factor_neq_0 h dh) as HC2.
  split; [split |].
  - rewrite (horizon_RHS_unfold h dh theta zs Hh Hvalid).
    intros [v H]. apply bind_ok_inv in H as (s & Hs & H).
    apply bind_ok_inv in H as (cot & Hcot & _). split.
    + apply (accumulate_inv _ _ _ _ _ Hs).
    + apply (cot_term_defined_iff theta dh _ HC2). eauto.
  - intros [Hnc Hreg].
    destruct (horizon_RHS_value_exists h dh theta zs Hh Hvalid Hnc Hreg) as [v Hv].
    eauto.
  - rewrite (horizon_RHS_unfold h dh theta zs Hh Hvalid).
    intros v H. apply bind_ok_inv in H as (s & _ & H).
    apply bind_ok_inv in H as (cot & _ & H). injection H as <-. reflexivity.
Qed.

Lemma horizon_RHS_domain_witness :
  (2 <> 0 /\ valid_singularities [1])
  /\ ((exists v, horizon_RHS (2, 1) 0 [1] = Ok v)
      <-> not_coincident 2 0 [1] /\ regular_angle 0).
Proof.
  assert (Hh : 2 <> 0) by lra.
  assert (Hv : valid_singularities [1]).
  { intros z [<- | []]. lra. }
  split; [split; assumption |].
  exact (proj1 (horizon_RHS_domain 2 1 0 [1] Hh Hv)).
Defined.

(** X5.  At an angle with [sin theta <> 0] and [cos theta <> 0] (every
    angle strictly between 0 and pi/2), [horizon_RHS] has a value for every
    [h <> 0], every [dh] and every list of non-negative source positions. *)
Theorem horizon_RHS_defined_off_axis (h dh theta : R) (zs : list R) :
  h <> 0 -> valid_singularities zs ->
  sin theta <> 0 -> cos theta <> 0 ->
  exists v, horizon_RHS (h, dh) theta zs = Ok (dh, v).
Proof.
  intros Hh Hvalid Hs Hc.
  assert (Hoff : h * sin theta <> 0)
    by (apply Rmult_integral_contrapositive_currified; assumption).
  apply horizon_RHS_value_exists; try assumption.
  - apply off_axis_not_coincident. exact Hoff.
  - right. split; assumption.
Qed.

Lemma sin_cos_PI4_neq_0 : sin (PI / 4) <> 0 /\ cos (PI / 4) <> 0.
Proof.
  pose proof PI_RGT_0 as Hpi.
  pose proof (sin_gt_0 (PI / 4)) as Hs.
  pose proof (cos_gt_0 (PI / 4)) as Hc.
  split; [assert (0 < sin (PI / 4)) by (apply Hs; lra)
         | assert (0 < cos (PI / 4)) by (apply Hc; lra)]; lra.
Qed.

Lemma horizon_RHS_defined_off_axis_witness :
  (1.3 <> 0 /\ valid_singularities [0.75]
   /\ sin (PI / 4) <> 0 /\ cos (PI / 4) <> 0)
  /\ exists v, horizon_RHS (1.3, 0.2) (PI / 4) [0.75] = Ok (0.2, v).
Proof.
  assert (Hh : 1.3 <> 0) by lra.
  assert (Hv : valid_singularities [0.75]).
  { intros z [<- | []]. lra. }
  destruct sin_cos_PI4_neq_0 as [Hs Hc].
  split; [repeat split; assumption |].
  exact (horizon_RHS_defined_off_axis 1.3 0.2 (PI / 4) [0.75] Hh Hv Hs Hc).
Defined.

(** X6.  At [h = 0] [horizon_RHS] has no value: for non-negative source
    positions it fails with a division by zero, whatever [dh] and [theta]
    are. *)
Theorem horizon_RHS_zero_radius (dh theta : R) (zs : list R) :
  valid_singularities zs ->
  horizon_RHS (0, dh) theta zs = Err NumericalDomainError.
Proof.
  intros Hvalid. unfold horizon_RHS.
  apply all_nonneg_valid in Hvalid. rewrite Hvalid. cbn [fst snd].
  destruct (singularity_field 0 theta zs) as [s | e] eqn:Hs; cbn [bind].
  - unfold normal_factor. rewrite divide_zero. reflexivity.
  - rewrite (accumulate_error _ _ _ _ _ Hs). reflexivity.
Qed.

Lemma horizon_RHS_zero_radius_witness :
  valid_singularities [0.75]
  /\ horizon_RHS (0, 1) (PI / 4) [0.75] = Err NumericalDomainError.
Proof.
  assert (Hv : valid_singularities [0.75]).
  { intros z [<- | []]. lra. }
  split; [exact Hv |].
  exact (horizon_RHS_zero_radius 1 (PI / 4) [0.75] Hv).
Defined.

Lemma divide_error (x y : R) (e : error) :
  divide x y = Err e -> e = NumericalDomainError.
Proof.
  unfold divide. destruct (Req_dec_T y 0); [congruence | discriminate].
Qed.

Lemma horizon_RHS_error (H : StateVector) (theta : R) (zs : list R) (e : error) :
  horizon_RHS H theta zs = Err e ->
  (e = AssertionError /\ all_nonneg zs = false)
  \/ (e = NumericalDomainError /\ all_nonneg zs = true).
Proof.
  unfold horizon_RHS. destruct (all_nonneg zs); [| intros E; left; split; congruence].
  intros E. right. split; [| reflexivity].
  destruct (singularity_field (fst H) theta zs) as [s | e1] eqn:Hs; cbn [bind] in E;
    [| injection E as <-; apply (accumulate_error _ _ _ _ _ Hs)].
  unfold normal_factor in E.
  destruct (divide (snd H) (fst H)) as [q | e1] eqn:Hq; cbn [bind] in E;
    [| injection E as <-; apply (divide_error _ _ _ Hq)].
  destruct (divide 1.0 (1.0 + q ^ 2)) as [C2 | e1] eqn:HC2; cbn [bind] in E;
    [| injection E as <-; apply (divide_error _ _ _ HC2)].
  destruct (cot_theta_dh_C2 theta (snd H) C2) as [cot | e1] eqn:Hcot; cbn [bind] in E;
    [| injection E as <-; apply (cot_term_error _ _ _ _ Hcot)].
  destruct (divide (4.0 * fst H ^ 2) (psi s * C2)) as [a | e1] eqn:Ha; cbn [bind] in E;
    [| injection E as <-; apply (divide_error _ _ _ Ha)].
  destruct (divide (dpsi_dtheta s * snd H) (fst H ^ 2)) as [b | e1] eqn:Hb;
    cbn [bind] in E; [| injection E as <-; apply (divide_error _ _ _ Hb)].
  destruct (divide (3.0 * snd H ^ 2) (fst H)) as [c | e1] eqn:Hc; cbn [bind] in E;
    [discriminate E | injection E as <-; apply (divide_error _ _ _ Hc)].
Qed.

(** X7.  [horizon_RHS] fails in two ways only: with the assertion error,
    exactly when some source position is negative, and otherwise with a
    division by zero. *)
Theorem horizon_RHS_failures (H : StateVector) (theta : R) (zs : list R) :
  (horizon_RHS H theta zs = Err AssertionError
   <-> exists z, In z zs /\ z < 0)
  /\ (forall e, horizon_RHS H theta zs = Err e ->
        e = AssertionError \/ e = NumericalDomainError).
Proof.
  split; [split |].
  - intros E. apply horizon_RHS_error in E as [[_ Hf] | [Habs _]];
      [apply all_nonneg_false; exact Hf | discriminate Habs].
  - apply horizon_RHS_rejects.
  - intros e E. apply horizon_RHS_error in E as [[-> _] | [-> _]]; auto.
Qed.

(** ** The order of the sources *)

Lemma sum_over_perm (f : R -> R) (l l' : list R) :
  Permutation l l' -> sum_over f l = sum_over f l'.
Proof.
  unfold sum_over. induction 1; cbn [fold_right]; lra.
Qed.

Lemma not_coincident_perm (h theta : R) (zs zs' : list R) :
  Permutation zs zs' -> not_coincident h theta zs -> not_coincident h theta zs'.
Proof.
  intros Hp Hnc z Hin. apply Hnc.
  apply (Permutation_in z (Permutation_sym Hp) Hin).
Qed.

Lemma all_nonneg_perm (zs zs' : list R) :
  Permutation zs zs' -> all_nonneg zs = all_nonneg zs'.
Proof.
  intros Hp.
  destruct (all_nonneg zs) eqn:E, (all_nonneg zs') eqn:E'; try reflexivity.
  - apply all_nonneg_valid in E. apply all_nonneg_false in E' as (z & Hin & Hz).
    specialize (E z (Permutation_in z (Permutation_sym Hp) Hin)). lra.
  - apply all_nonneg_valid in E'. apply all_nonneg_false in E as (z & Hin & Hz).
    specialize (E' z (Permutation_in z Hp Hin)). lra.
Qed.

Lemma accumulate_perm (h theta : R) (zs zs' : list R) (s : ConformalFactorSample) :
  Permutation zs zs' -> accumulate h theta zs s = accumulate h theta zs' s.
Proof.
  intros Hp.
  destruct (accumulate h theta zs s) as [s1 | e] eqn:E.
  - pose proof (accumulate_inv _ _ _ _ _ E) as Hnc.
    pose proof (not_coincident_perm _ _ _ _ Hp Hnc) as Hnc'.
    rewrite (accumulate_closed h theta zs Hnc) in E.
    rewrite (accumulate_closed h theta zs' Hnc'), <- E.
    rewrite !(sum_over_perm _ _ _ Hp). reflexivity.
  - rewrite (accumulate_error _ _ _ _ _ E).
    destruct (accumulate h theta zs' s) as [s1 | e'] eqn:E'.
    + pose proof (accumulate_inv _ _ _ _ _ E') as Hnc'.
      pose proof (not_coincident_perm _ _ _ _ (Permutation_sym Hp) Hnc') as Hnc.
      rewrite (accumulate_closed h theta zs Hnc) in E. discriminate E.
    + rewrite (accumulate_error _ _ _ _ _ E'). reflexivity.
Qed.

(** X8.  The result of [horizon_RHS], value or failure, does not depend on
    the order in which the sources are listed. *)
Theorem horizon_RHS_order_independent
    (H : StateVector) (theta : R) (zs zs' : list R) :
  Permutation zs zs' ->
  singularity_field (fst H) theta zs = singularity_field (fst H) theta zs'
  /\ horizon_RHS H theta zs = horizon_RHS H theta zs'.
Proof.
  intros Hp.
  assert (Hf : singularity_field (fst H) theta zs
               = singularity_field (fst H) theta zs')
    by (apply accumulate_perm; exact Hp).
  split; [exact Hf |].
  unfold horizon_RHS. rewrite (all_nonneg_perm zs zs' Hp), Hf. reflexivity.
Qed.

Lemma horizon_RHS_order_independent_witness :
  Permutation [0.75; 0.0] [0.0; 0.75]
  /\ horizon_RHS (1.3, 0.2) (PI / 4) [0.75; 0.0]
     = horizon_RHS (1.3, 0.2) (PI / 4) [0.0; 0.75].
Proof.
  assert (Hp : Permutation [0.75; 0.0] [0.0; 0.75]) by apply perm_swap.
  split; [exact Hp |].
  exact (proj2 (horizon_RHS_order_independent (1.3, 0.2) (PI / 4) _ _ Hp)).
Defined.

(** ** Reflection in the equatorial plane, [theta |-> pi - theta] *)

Lemma cos_PI_minus (theta : R) : cos (PI - theta) = - cos theta.
Proof. rewrite cos_minus, cos_PI, sin_PI. ring. Qed.

Lemma distance_reflect (h theta z : R) :
  distance h (PI - theta) z = distance_mirror h theta z.
Proof.
  unfold distance, distance_mirror. rewrite sin_PI_x, cos_PI_minus. f_equal. ring.
Qed.

Lemma distance_mirror_reflect (h theta z : R) :
  distance_mirror h (PI - theta) z = distance h theta z.
Proof.
  unfold distance, distance_mirror. rewrite sin_PI_x, cos_PI_minus. f_equal. ring.
Qed.

Lemma distance_mirror_origin (h theta : R) :
  distance_mirror h theta 0 = distance h theta 0.
Proof. rewrite distance_mirror_direct, Ropp_0. reflexivity. Qed.

Lemma source_defined_reflect (h theta z : R) :
  z >= 0 -> source_defined h theta z -> source_defined h (PI - theta) z.
Proof.
  intros Hz [Hd Hm]. unfold source_defined.
  rewrite distance_reflect, distance_mirror_reflect.
  destruct (Rgt_dec z 0) as [P | N].
  - split; [apply Hm; exact P | intros _; exact Hd].
  - assert (z = 0) as -> by lra. rewrite distance_mirror_origin.
    split; [exact Hd | intros _; exact Hd].
Qed.

Lemma psi_gain_reflect (h theta z : R) :
  z >= 0 -> psi_gain h (PI - theta) z = psi_gain h theta z.
Proof.
  intros Hz. unfold psi_gain. rewrite distance_reflect, distance_mirror_reflect.
  destruct (Rgt_dec z 0.0) as [P | N]; [ring |].
  assert (z = 0) as -> by lra. rewrite distance_mirror_origin. reflexivity.
Qed.

Lemma dpsi_dr_loss_reflect (h theta z : R) :
  z >= 0 -> dpsi_dr_loss h (PI - theta) z = dpsi_dr_loss h theta z.
Proof.
  intros Hz. unfold dpsi_dr_loss.
  rewrite distance_reflect, distance_mirror_reflect, cos_PI_minus.
  destruct (Rgt_dec z 0.0) as [P | N]; [unfold Rdiv; ring |].
  assert (z = 0) as -> by lra. rewrite distance_mirror_origin. unfold Rdiv. ring.
Qed.

Lemma dpsi_dtheta_loss_reflect (h theta z : R) :
  z >= 0 -> dpsi_dtheta_loss h (PI - theta) z = - dpsi_dtheta_loss h theta z.
Proof.
  intros Hz. unfold dpsi_dtheta_loss.
  rewrite distance_reflect, distance_mirror_reflect, sin_PI_x.
  destruct (Rgt_dec z 0.0) as [P | N]; [unfold Rdiv; ring |].
  assert (z = 0) as -> by lra. unfold Rdiv. ring.
Qed.

Lemma sum_over_ext (f g : R -> R) (zs : list R) :
  (forall z, In z zs -> f z = g z) -> sum_over f zs = sum_over g zs.
Proof.
  unfold sum_over. induction zs as [| z rest IH]; intros Hfg; cbn [fold_right].
  - reflexivity.
  - rewrite (Hfg z (or_introl eq_refl)), IH; [reflexivity |].
    intros z' Hin. apply Hfg. right. exact Hin.
Qed.

Lemma sum_over_opp (f g : R -> R) (zs : list R) :
  (forall z, In z zs -> f z = - g z) -> sum_over f zs = - sum_over g zs.
Proof.
  unfold sum_over. induction zs as [| z rest IH]; intros Hfg; cbn [fold_right].
  - ring.
  - rewrite (Hfg z (or_introl eq_refl)), IH; [ring |].
    intros z' Hin. apply Hfg. right. exact Hin.
Qed.

Lemma accumulate_reflect (h theta : R) (zs : list R) (s : ConformalFactorSample) :
  valid_singularities zs ->
  singularity_field h theta zs = Ok s ->
  singularity_field h (PI - theta) zs
  = Ok (mkSample (psi s) (dpsi_dr s) (- dpsi_dtheta s)).
Proof.
  intros Hvalid H. unfold singularity_field in *.
  pose proof (accumulate_inv _ _ _ _ _ H) as Hnc.
  assert (Hnc' : not_coincident h (PI - theta) zs).
  { intros z Hin. apply source_defined_reflect; [apply Hvalid; exact Hin |].
    apply Hnc. exact Hin. }
  rewrite (accumulate_closed h theta zs Hnc) in H. injection H as <-.
  rewrite (accumulate_closed h (PI - theta) zs Hnc').
  cbn [psi dpsi_dr dpsi_dtheta flat_background].
  rewrite (sum_over_ext (psi_gain h (PI - theta)) (psi_gain h theta))
    by (intros z Hin; apply psi_gain_reflect, Hvalid, Hin).
  rewrite (sum_over_ext (dpsi_dr_loss h (PI - theta)) (dpsi_dr_loss h theta))
    by (intros z Hin; apply dpsi_dr_loss_reflect, Hvalid, Hin).
  rewrite (sum_over_opp (dpsi_dtheta_loss h (PI - theta)) (dpsi_dtheta_loss h theta))
    by (intros z Hin; apply dpsi_dtheta_loss_reflect, Hvalid, Hin).
  f_equal. apply sample_eq; lra.
Qed.

(** X9.  Reflection symmetry of the field: for non-negative source
    positions, the loop at [pi - theta] leaves the same [psi] and [dpsi_dr]
    as at [theta], and the opposite [dpsi_dtheta]. *)
Theorem singularity_field_reflection
    (h theta : R) (zs : list R) (s : ConformalFactorSample) :
  valid_singularities zs ->
  singularity_field h theta zs = Ok s ->
  singularity_field h (PI - theta) zs
  = Ok (mkSample (psi s) (dpsi_dr s) (- dpsi_dtheta s)).
Proof. apply accumulate_reflect. Qed.

Lemma singularity_field_reflection_witness :
  valid_singularities [0.75]
  /\ exists s,
       singularity_field 1.3 (PI / 4) [0.75] = Ok s
       /\ singularity_field 1.3 (PI - PI / 4) [0.75]
          = Ok (mkSample (psi s) (dpsi_dr s) (- dpsi_dtheta s)).
Proof.
  assert (Hv : valid_singularities [0.75]).
  { intros z [<- | []]. lra. }
  assert (Hoff : 1.3 * sin (PI / 4) <> 0).
  { apply Rmult_integral_contrapositive_currified;
      [lra | apply sin_cos_PI4_neq_0]. }
  destruct (accumulate_defined 1.3 (PI / 4) [0.75]
              (off_axis_not_coincident 1.3 (PI / 4) [0.75] Hoff) flat_background)
    as [s Hs].
  split; [exact Hv |]. exists s. split; [exact Hs |].
  exact (singularity_field_reflection 1.3 (PI / 4) [0.75] s Hv Hs).
Defined.

(** The guard is written with [numpy.pi], the reflection with pi: the two
    agree on where the guard is taken for every angle away from both ends. *)
Lemma on_axis_reflect_interior (theta : R) :
  3e-16 <= theta <= 3 -> on_axis (PI - theta) = on_axis theta.
Proof.
  intros [Hlo Hhi].
  pose proof np_pi_bounds. pose proof np_pi_lt_PI. pose proof PI_lt_np_pi_plus.
  assert (Hn : 3.14 < np_pi) by (unfold np_pi; lra).
  rewrite (on_axis_false theta) by (try left; lra).
  apply on_axis_false; [| left]; lra.
Qed.

Lemma tan_PI_minus (theta : R) :
  cos theta <> 0 -> tan (PI - theta) = - tan theta.
Proof.
  intros N. unfold tan. rewrite sin_PI_x, cos_PI_minus. field. exact N.
Qed.

Lemma cot_term_reflect (theta dh C2 c : R) :
  on_axis (PI - theta) = on_axis theta ->
  cot_theta_dh_C2 theta dh C2 = Ok c ->
  exists c', cot_theta_dh_C2 (PI - theta) (- dh) C2 = Ok c' /\ c' = c.
Proof.
  intros Hax. unfold cot_theta_dh_C2. rewrite Hax.
  destruct (on_axis theta); intros H.
  - injection H as <-. eauto.
  - apply bind_ok_inv in H as (t & Ht & Hd).
    unfold np_tan in Ht. destruct (Req_dec_T (cos theta) 0) as [E | Hc];
      [discriminate Ht |].
    injection Ht as <-. apply divide_inv in Hd as [Hn ->].
    unfold np_tan. rewrite cos_PI_minus.
    destruct (Req_dec_T (- cos theta) 0) as [E | _]; [exfalso; lra |].
    cbn [bind]. rewrite (tan_PI_minus theta Hc).
    assert (Hn' : - tan theta * C2 <> 0) by lra.
    rewrite (divide_ok _ _ Hn'). eexists. split; [reflexivity |].
    field. split.
    + intros HC. apply Hn. rewrite HC. ring.
    + intros HT. apply Hn. rewrite HT. ring.
Qed.

(** X10.  Reflection symmetry of the right-hand side: for [h <> 0],
    non-negative source positions and an angle at which the guard is taken
    at both of [theta] and [pi - theta] or at neither (every [theta] from
    [3e-16] to [3]), if [horizon_RHS] returns [(dh, v)] at [(h, dh)] and
    [theta], it returns [(-dh, v)] at [(h, -dh)] and [pi - theta]. *)
Theorem horizon_RHS_reflection (h dh theta v : R) (zs : list R) :
  h <> 0 -> valid_singularities zs ->
  on_axis (PI - theta) = on_axis theta ->
  horizon_RHS (h, dh) theta zs = Ok (dh, v) ->
  horizon_RHS (h, - dh) (PI - theta) zs = Ok (- dh, v).
Proof.
  intros Hh Hvalid Hax H.
  rewrite (horizon_RHS_unfold h dh theta zs Hh Hvalid) in H.
  apply bind_ok_inv in H as (s & Hs & H).
  apply bind_ok_inv in H as (cot & Hcot & H). injection H as <-.
  rewrite (horizon_RHS_unfold h (- dh) (PI - theta) zs Hh Hvalid).
  rewrite (accumulate_reflect h theta zs s Hvalid Hs). cbn [bind].
  assert (EC2 : 1.0 / (1.0 + (- dh / h) ^ 2) = 1.0 / (1.0 + (dh / h) ^ 2)).
  { f_equal. f_equal. unfold Rdiv. ring. }
  rewrite EC2.
  destruct (cot_term_reflect theta dh _ cot Hax Hcot) as (c' & -> & ->).
  cbn [bind psi dpsi_dr dpsi_dtheta]. f_equal. f_equal.
  cbn [pow]. unfold Rdiv. ring.
Qed.

(** ** The field on the axis *)

Lemma dpsi_dtheta_loss_on_axis (h theta z : R) :
  sin theta = 0 -> dpsi_dtheta_loss h theta z = 0.
Proof.
  intros Hs. unfold dpsi_dtheta_loss. rewrite Hs.
  destruct (Rgt_dec z 0.0); unfold Rdiv; ring.
Qed.

(** X11.  At an angle with [sin theta = 0] (the axis, [theta = 0] or
    [theta = pi]) the loop, when it has a value, leaves [dpsi_dtheta]
    exactly 0, whatever the sources are. *)
Theorem dpsi_dtheta_zero_on_axis
    (h theta : R) (zs : list R) (s : ConformalFactorSample) :
  sin theta = 0 ->
  singularity_field h theta zs = Ok s ->
  dpsi_dtheta s = 0.
Proof.
  intros Hsin H. unfold singularity_field in H.
  pose proof (accumulate_inv _ _ _ _ _ H) as Hnc.
  rewrite (accumulate_closed h theta zs Hnc) in H. injection H as <-.
  cbn [dpsi_dtheta flat_background].
  rewrite (sum_over_opp (dpsi_dtheta_loss h theta) (fun _ => 0)).
  - assert (E : sum_over (fun _ : R => 0) zs = 0).
    { unfold sum_over. induction zs as [| z rest IH]; cbn [fold_right]; [reflexivity |].
      rewrite IH; [ring |]. intros z' Hin. apply Hnc. right. exact Hin. }
    rewrite E. lra.
  - intros z _. rewrite (dpsi_dtheta_loss_on_axis h theta z Hsin). ring.
Qed.

Lemma horizon_RHS_reflection_witness :
  (1.3 <> 0 /\ valid_singularities [0.75]
   /\ on_axis (PI - PI / 4) = on_axis (PI / 4))
  /\ exists v,
       horizon_RHS (1.3, 0.2) (PI / 4) [0.75] = Ok (0.2, v)
       /\ horizon_RHS (1.3, - (0.2)) (PI - PI / 4) [0.75] = Ok (- (0.2), v).
Proof.
  assert (Hh : 1.3 <> 0) by lra.
  assert (Hv : valid_singularities [0.75]).
  { intros z [<- | []]. lra. }
  destruct sin_cos_PI4_neq_0 as [Hs Hc].
  assert (Hoff : 1.3 * sin (PI / 4) <> 0)
    by (apply Rmult_integral_contrapositive_currified; assumption).
  destruct (horizon_RHS_value_exists 1.3 0.2 (PI / 4) [0.75] Hh Hv
              (off_axis_not_coincident 1.3 (PI / 4) [0.75] Hoff)
              (or_intror (conj Hs Hc))) as [v Hval].
  assert (Hax : on_axis (PI - PI / 4) = on_axis (PI / 4)).
  { pose proof PI_gt_3. pose proof PI_4. apply on_axis_reflect_interior. lra. }
  split; [split; [exact Hh | split; [exact Hv | exact Hax]] |].
  exists v. split; [exact Hval |].
  exact (horizon_RHS_reflection 1.3 0.2 (PI / 4) v [0.75] Hh Hv Hax Hval).
Defined.

(** Without the agreement of the guard the symmetry fails: at
    [theta = numpy.pi] the guard is taken, at [pi - numpy.pi], about
    [1.2e-16], it is not, and the cotangent term there is not zero. *)
Lemma horizon_RHS_reflection_guard_mismatch :
  on_axis np_pi = true
  /\ on_axis (PI - np_pi) = false
  /\ horizon_RHS (1, 1) np_pi [] = Ok (1, 2.0 * 1 - 0.0 + 3.0 * 1 ^ 2 / 1)
  /\ exists c,
       c < 0
       /\ horizon_RHS (1, - (1)) (PI - np_pi) []
          = Ok (- (1), 2.0 * 1 - c + 3.0 * (- (1)) ^ 2 / 1).
Proof.
  pose proof np_pi_bounds as Hb. pose proof np_pi_gap as Hg.
  pose proof PI_4 as H4.
  assert (Hon : on_axis np_pi = true).
  { apply on_axis_true. right. replace (np_pi - np_pi) with 0 by ring.
    rewrite Rabs_R0. lra. }
  assert (Hoff : on_axis (PI - np_pi) = false)
    by (apply on_axis_false; [| left]; lra).
  split; [exact Hon | split; [exact Hoff | split]].
  - rewrite horizon_RHS_empty by lra.
    rewrite (cot_term_on_axis _ _ _ Hon). reflexivity.
  - assert (Hint : 0 < PI - np_pi < PI / 2) by lra.
    destruct (interior_sin_cos_pos _ Hint) as [Hs Hc].
    assert (Ht : 0 < tan (PI - np_pi)) by (apply tan_gt_0; lra).
    pose proof (normal_factor_pos 1 (- (1))) as HC2.
    assert (Hp : 0 < tan (PI - np_pi) * (1.0 / (1.0 + (- (1) / 1) ^ 2)))
      by (apply Rmult_lt_0_compat; assumption).
    exists (- (1) / (tan (PI - np_pi) * (1.0 / (1.0 + (- (1) / 1) ^ 2)))).
    split.
    + unfold Rdiv at 1. apply Rinv_0_lt_compat in Hp. nra.
    + rewrite horizon_RHS_empty by lra.
      unfold cot_theta_dh_C2. rewrite Hoff. unfold np_tan.
      destruct (Req_dec_T (cos (PI - np_pi)) 0) as [E | _]; [exfalso; lra |].
      cbn [bind]. rewrite divide_ok by lra. reflexivity.
Qed.

Lemma dpsi_dtheta_zero_on_axis_witness :
  sin 0 = 0
  /\ exists s, singularity_field 2 0 [1] = Ok s /\ dpsi_dtheta s = 0.
Proof.
  assert (Hnc : not_coincident 2 0 [1]).
  { intros z [<- | []]. split.
    - apply distance_on_axis_neq_0. lra.
    - intros _. apply distance_mirror_on_axis_neq_0. lra. }
  destruct (accumulate_defined 2 0 [1] Hnc flat_background) as [s Hs].
  split; [exact sin_0 |]. exists s. split; [exact Hs |].
  exact (dpsi_dtheta_zero_on_axis 2 0 [1] s sin_0 Hs).
Defined.

(** ** One source at the origin, started with [dh = 0] *)

Lemma origin_field (h theta : R) :
  h > 0 ->
  singularity_field h theta [0.0]
  = Ok (mkSample (1 + / (2 * h)) (- / (2 * h ^ 2)) 0).
Proof.
  intros Hh. unfold singularity_field. cbn [accumulate].
  rewrite source_contribution_not_positive by lra.
  assert (Hd : distance h theta 0.0 = h) by (apply distance_origin; lra).
  rewrite direct_contribution_ok by (rewrite Hd; lra).
  rewrite Hd. cbn [bind flat_background psi dpsi_dr dpsi_dtheta].
  assert (E0 : 0.0 = 0) by lra. assert (E1 : 1.0 = 1) by lra.
  assert (E5 : 0.5 = / 2) by lra.
  f_equal. apply sample_eq.
  - rewrite E1, E5. field. lra.
  - rewrite E0, E5. field. lra.
  - rewrite E0. unfold Rdiv. ring.
Qed.

(** X12.  With the single source [0.0] (the Schwarzschild case of the
    notebook), at a state [(h, 0)] with [h > 0] and an angle where the
    cotangent term has a value, [horizon_RHS] returns [(0, v)] with
    [v = 2h(h - 0.5)/(h + 0.5)]: negative below the radius 0.5, zero at it
    and positive above it. *)
Theorem horizon_RHS_origin_sign (h theta : R) :
  h > 0 -> regular_angle theta ->
  exists v,
    horizon_RHS (h, 0.0) theta [0.0] = Ok (0.0, v)
    /\ v = 2 * h * (h - 0.5) / (h + 0.5)
    /\ (v < 0 <-> h < 0.5) /\ (v = 0 <-> h = 0.5) /\ (v > 0 <-> h > 0.5).
Proof.
  intros Hh Hreg.
  rewrite horizon_RHS_unfold; [| lra | exact valid_origin].
  rewrite (origin_field h theta Hh). cbn [bind psi dpsi_dr dpsi_dtheta].
  destruct (cot_term_zero_dh theta _ Hreg (normal_factor_neq_0 h 0.0))
    as (c & -> & ->).
  cbn [bind]. eexists. split; [reflexivity |].
  assert (E0 : 0.0 = 0) by lra. assert (E1 : 1.0 = 1) by lra.
  assert (E2 : 2.0 = 2) by lra. assert (E3 : 3.0 = 3) by lra.
  assert (E4 : 4.0 = 4) by lra. assert (E5 : 0.5 = / 2) by lra.
  assert (Ev : 2.0 * h - 0
               + 4.0 * h ^ 2 / ((1 + / (2 * h)) * (1.0 / (1.0 + (0.0 / h) ^ 2)))
                 * (- / (2 * h ^ 2) - 0 * 0.0 / h ^ 2)
               + 3.0 * 0.0 ^ 2 / h
               = 2 * h * (h - 0.5) / (h + 0.5)).
  { rewrite E0, E1, E2, E3, E4, E5. field. lra. }
  split; [exact Ev |]. rewrite Ev.
  assert (Hp : 0 < / (h + 0.5)) by (apply Rinv_0_lt_compat; lra).
  assert (Hk : 0 < 2 * h * / (h + 0.5)) by (apply Rmult_lt_0_compat; lra).
  replace (2 * h * (h - 0.5) / (h + 0.5))
    with (2 * h * / (h + 0.5) * (h - 0.5)) by (unfold Rdiv; ring).
  set (k := 2 * h * / (h + 0.5)) in *.
  repeat split; intros; nra.
Qed.

Lemma horizon_RHS_origin_sign_witness :
  (0.4 > 0 /\ regular_angle 0)
  /\ exists v,
       horizon_RHS (0.4, 0.0) 0 [0.0] = Ok (0.0, v)
       /\ v = 2 * 0.4 * (0.4 - 0.5) / (0.4 + 0.5).
Proof.
  assert (Hh : 0.4 > 0) by lra.
  assert (Hreg : regular_angle 0) by (left; apply on_axis_0).
  split; [split; assumption |].
  destruct (horizon_RHS_origin_sign 0.4 0 Hh Hreg) as (v & Hv & Ev & _).
  exists v. split; assumption.
Defined.

(** ** The grid and the driver loop *)

Lemma nth_error_map_seq {A : Type} (f : nat -> A) (len : nat) :
  forall start i, (i < len)%nat ->
    nth_error (map f (seq start len)) i = Some (f (start + i)%nat).
Proof.
  induction len as [| len IH]; intros start i Hi; [lia |].
  destruct i as [| i]; cbn [seq map nth_error].
  - f_equal. f_equal. lia.
  - rewrite IH by lia. f_equal. f_equal. lia.
Qed.

Lemma march_links (step : stepper) (dtheta : R) (zs : list R) (thetas : list R) :
  forall H tl,
    march step H thetas dtheta zs = Ok tl ->
    length tl = length thetas
    /\ forall i Hi Hn theta,
         nth_error (H :: tl) i = Some Hi ->
         nth_error tl i = Some Hn ->
         nth_error thetas i = Some theta ->
         step Hi theta dtheta zs = Ok Hn.
Proof.
  induction thetas as [| theta0 rest IH]; intros H tl Hm; cbn [march] in Hm.
  - injection Hm as <-. split; [reflexivity |].
    intros i Hi Hn theta _ Hn'. destruct i; discriminate Hn'.
  - apply bind_ok_inv in Hm as (H1 & Hstep & Hm).
    apply bind_ok_inv in Hm as (tl1 & Hrest & Hm). injection Hm as <-.
    destruct (IH H1 tl1 Hrest) as [Hlen Hlink].
    split; [cbn [length]; rewrite Hlen; reflexivity |].
    intros i Hi Hn theta Ha Hb Hc. destruct i as [| i].
    + cbn [nth_error] in Ha, Hb, Hc.
      injection Ha as <-. injection Hb as <-. injection Hc as <-. exact Hstep.
    + cbn [nth_error] in Ha, Hb, Hc. apply (Hlink i Hi Hn theta Ha Hb Hc).
Qed.

(** X14.  The driver loop.  On a grid of fewer than two angles it fails
    with an index error at [theta[1]], before the stepper or the sources are
    looked at.  When it returns a trajectory, the trajectory has [Ntheta]
    columns, column 0 is [(h0, 0)], and every column [i+1] is the stepper's
    result from column [i] at [theta[i]] with the step [dtheta]. *)
Theorem integrate_trajectory
    (step : stepper) (h0 : R) (Ntheta : nat) (zs : list R) :
  ((Ntheta < 2)%nat -> integrate step h0 Ntheta zs = Err IndexError)
  /\ forall trajectory,
       integrate step h0 Ntheta zs = Ok trajectory ->
       (2 <= Ntheta)%nat
       /\ length trajectory = Ntheta
       /\ nth_error trajectory 0 = Some (h0, 0.0)
       /\ forall i Hi Hn,
            nth_error trajectory i = Some Hi ->
            nth_error trajectory (S i) = Some Hn ->
            step Hi (grid_angle Ntheta i) (grid_dtheta Ntheta) zs = Ok Hn.
Proof.
  split; [apply integrate_short_grid |].
  intros trajectory H.
  assert (HN : (2 <= Ntheta)%nat).
  { destruct (Nat.lt_ge_cases Ntheta 2) as [Hlt | Hge]; [| exact Hge].
    rewrite (integrate_short_grid step h0 Ntheta zs Hlt) in H. discriminate H. }
  rewrite (integrate_unfold step h0 Ntheta zs HN) in H.
  apply bind_ok_inv in H as (tl & Hm & H). injection H as <-.
  destruct (march_links step _ zs _ _ _ Hm) as [Hlen Hlink].
  rewrite length_map, length_seq in Hlen.
  split; [exact HN | split; [cbn [length]; lia | split; [reflexivity |]]].
  intros i Hi Hn Ha Hb. cbn [nth_error] in Hb.
  assert (Hi' : (i < Ntheta - 1)%nat).
  { rewrite <- Hlen. apply nth_error_Some. congruence. }
  apply (Hlink i Hi Hn (grid_angle Ntheta i) Ha Hb).
  rewrite nth_error_map_seq by exact Hi'. reflexivity.
Qed.

Lemma integrate_trajectory_witness :
  integrate euler_step 0.5 100 [0.0] = Ok (repeat schwarzschild_state 100)
  /\ length (repeat schwarzschild_state 100) = 100%nat
  /\ integrate rk2_step 0.5 1 [0.0] = Err IndexError.
Proof.
  assert (HN : (2 <= 100)%nat) by lia.
  pose proof (integrate_euler_schwarzschild 100 HN) as Hrun.
  split; [exact Hrun | split].
  - exact (proj1 (proj2 (proj2 (integrate_trajectory euler_step 0.5 100 [0.0])
                           _ Hrun))).
  - exact (proj1 (integrate_trajectory rk2_step 0.5 1 [0.0]) (le_n 2)).
Defined.

(** ** [dpsi_dr] is the radial derivative of [psi] *)

Lemma psi_gain_radius_derivative (h theta z : R) :
  source_defined h theta z ->
  derivable_pt_lim (fun r => psi_gain r theta z) h (- dpsi_dr_loss h theta z).
Proof.
  intros [Hd Hm]. unfold psi_gain, dpsi_dr_loss.
  pose proof (psi_term_radius_derivative h z theta Hd) as D1.
  destruct (Rgt_dec z 0.0) as [P | N].
  - assert (Hm' : distance h theta (- z) <> 0)
      by (rewrite <- distance_mirror_direct; apply Hm; lra).
    pose proof (psi_term_radius_derivative h (- z) theta Hm') as D2.
    pose proof (derivable_pt_lim_plus _ _ h _ _ D1 D2) as D.
    replace (- (0.5 * (h - z * cos theta) / distance h theta z ^ 3
                + 0.5 * (h + z * cos theta) / distance_mirror h theta z ^ 3))
      with (- (0.5 * (h - z * cos theta) / distance h theta z ^ 3)
            + - (0.5 * (h - - z * cos theta) / distance h theta (- z) ^ 3)).
    + refine (derivable_pt_lim_ext _ _ _ _ _ D).
      intros r. unfold plus_fct. rewrite <- distance_mirror_direct. reflexivity.
    + rewrite <- distance_mirror_direct. unfold Rdiv. ring.
  - pose proof (derivable_pt_lim_plus _ _ h _ _ D1 (derivable_pt_lim_const 0 h)) as D.
    replace (- (0.5 * (h - z * cos theta) / distance h theta z ^ 3 + 0))
      with (- (0.5 * (h - z * cos theta) / distance h theta z ^ 3) + 0) by ring.
    refine (derivable_pt_lim_ext _ _ _ _ _ D).
    intros r. reflexivity.
Qed.

Lemma sum_psi_gain_radius_derivative (h theta : R) (zs : list R) :
  not_coincident h theta zs ->
  derivable_pt_lim (fun r => sum_over (psi_gain r theta) zs) h
    (- sum_over (dpsi_dr_loss h theta) zs).
Proof.
  induction zs as [| z rest IH]; intros Hnc; cbn [sum_over fold_right].
  - replace (- 0) with 0 by ring. apply (derivable_pt_lim_const 0 h).
  - apply not_coincident_cons in Hnc as [Hz Hrest].
    pose proof (derivable_pt_lim_plus _ _ h _ _
                  (psi_gain_radius_derivative h theta z Hz) (IH Hrest)) as D.
    replace (- (dpsi_dr_loss h theta z
                + fold_right (fun z0 acc => dpsi_dr_loss h theta z0 + acc) 0 rest))
      with (- dpsi_dr_loss h theta z + - sum_over (dpsi_dr_loss h theta) rest)
      by (unfold sum_over; ring).
    refine (derivable_pt_lim_ext _ _ _ _ _ D).
    intros r. reflexivity.
Qed.

(** X15.  Wherever the loop has a value its [psi] is [psi_closed], the flat
    background plus the sources' terms, and the [dpsi_dr] it leaves at
    [(h, theta)] is the derivative of [psi_closed] in the radius at [h]. *)
Theorem dpsi_dr_is_radial_derivative
    (h theta : R) (zs : list R) (s : ConformalFactorSample) :
  singularity_field h theta zs = Ok s ->
  (forall r s_r, singularity_field r theta zs = Ok s_r ->
     psi s_r = psi_closed r theta zs)
  /\ derivable_pt_lim (fun r => psi_closed r theta zs) h (dpsi_dr s).
Proof.
  intros H. split.
  - intros r s_r Hr. unfold singularity_field in Hr.
    pose proof (accumulate_inv _ _ _ _ _ Hr) as Hnc.
    rewrite (accumulate_closed r theta zs Hnc) in Hr. injection Hr as <-.
    reflexivity.
  - unfold singularity_field in H.
    pose proof (accumulate_inv _ _ _ _ _ H) as Hnc.
    rewrite (accumulate_closed h theta zs Hnc) in H. injection H as <-.
    cbn [dpsi_dr flat_background]. unfold psi_closed.
    pose proof (derivable_pt_lim_plus _ _ h _ _
                  (derivable_pt_lim_const 1.0 h)
                  (sum_psi_gain_radius_derivative h theta zs Hnc)) as D.
    replace (0.0 - sum_over (dpsi_dr_loss h theta) zs)
      with (0 + - sum_over (dpsi_dr_loss h theta) zs) by lra.
    refine (derivable_pt_lim_ext _ _ _ _ _ D).
    intros r. reflexivity.
Qed.

Lemma dpsi_dr_is_radial_derivative_witness :
  exists s,
    singularity_field 1.3 (PI / 4) [0.75] = Ok s
    /\ derivable_pt_lim (fun r => psi_closed r (PI / 4) [0.75]) 1.3 (dpsi_dr s).
Proof.
  assert (Hoff : 1.3 * sin (PI / 4) <> 0).
  { apply Rmult_integral_contrapositive_currified;
      [lra | apply sin_cos_PI4_neq_0]. }
  destruct (accumulate_defined 1.3 (PI / 4) [0.75]
              (off_axis_not_coincident 1.3 (PI / 4) [0.75] Hoff) flat_background)
    as [s Hs].
  exists s. split; [exact Hs |].
  exact (proj2 (dpsi_dr_is_radial_derivative 1.3 (PI / 4) [0.75] s Hs)).
Defined.

Lemma last_default_irrelevant {A : Type} (l : list A) (d d' : A) :
  l <> [] -> last l d = last l d'.
Proof.
  induction l as [| a [| b l'] IH]; intros Hne; [contradiction | reflexivity |].
  change (last (b :: l') d = last (b :: l') d'). apply IH. discriminate.
Qed.

(** X16.  A failure of the driver loop is the failure of one stepper call,
    the first that fails: the steps before it succeeded, and the error is
    passed on unchanged, with no partial trajectory. *)
Theorem march_first_failure
    (step : stepper) (dtheta : R) (zs : list R) (thetas : list R) :
  forall H e,
    march step H thetas dtheta zs = Err e ->
    exists before theta after done,
      thetas = before ++ theta :: after
      /\ march step H before dtheta zs = Ok done
      /\ step (last done H) theta dtheta zs = Err e.
Proof.
  induction thetas as [| theta0 rest IH]; intros H e Hm; cbn [march] in Hm.
  - discriminate Hm.
  - destruct (step H theta0 dtheta zs) as [H1 | e1] eqn:Hstep; cbn [bind] in Hm.
    + destruct (march step H1 rest dtheta zs) as [tl | e2] eqn:Hrest;
        cbn [bind] in Hm; [discriminate Hm |].
      injection Hm as <-.
      destruct (IH H1 e2 Hrest) as (before & theta & after & done & -> & Hb & Hf).
      exists (theta0 :: before), theta, after, (H1 :: done).
      split; [reflexivity | split].
      * cbn [march]. rewrite Hstep. cbn [bind]. rewrite Hb. reflexivity.
      * destruct done as [| d ds]; [exact Hf |].
        change (last (H1 :: d :: ds) H) with (last (d :: ds) H).
        rewrite (last_default_irrelevant (d :: ds) H1 H) in Hf by discriminate.
        exact Hf.
    + injection Hm as <-. exists [], theta0, rest, []. auto.
Qed.

Lemma march_first_failure_witness :
  march euler_step (0.5, 0.0) [0; 1] 1 [-1] = Err AssertionError
  /\ exists before theta after done,
       [0; 1] = before ++ theta :: after
       /\ march euler_step (0.5, 0.0) before 1 [-1] = Ok done
       /\ euler_step (last done (0.5, 0.0)) theta 1 [-1] = Err AssertionError.
Proof.
  assert (Hneg : exists z, In z [-1] /\ z < 0).
  { exists (-1). split; [left; reflexivity | lra]. }
  assert (Hstep : euler_step (0.5, 0.0) 0 1 [-1] = Err AssertionError).
  { unfold euler_step. rewrite (horizon_RHS_rejects _ _ _ Hneg). reflexivity. }
  pose proof (march_first_error euler_step (0.5, 0.0) 1 [-1] 0 [1]
                AssertionError Hstep) as Hm.
  split; [exact Hm |].
  exact (march_first_failure euler_step 1 [-1] [0; 1] (0.5, 0.0)
           AssertionError Hm).
Defined.
